(** * participle: the parse-node engine of nodes.go, shallowly embedded

    The operator tree ([node] and its implementations), the parse context
    the nodes drive, and the capture/assignment system ([conform],
    [setField]) are translated function by function.  Go's [reflect] values
    are modelled by an explicit heap of addressable cells, so that the
    aliasing between a struct under construction, the deferred captures
    that point at it and the value list returned to the caller is kept. *)

From Stdlib Require Import ZArith List String Ascii Bool Lia DecimalString.
Import ListNotations.
Open Scope string_scope.
Open Scope Z_scope.
Set Warnings "-register-all".

(** ** Tokens (package lexer) *)

Record Position := mkPosition {
  Filename : string;
  Offset : Z;
  Line : Z;
  Column : Z
}.

Definition Position_eqb (a b : Position) : bool :=
  String.eqb (Filename a) (Filename b) && Z.eqb (Offset a) (Offset b)
  && Z.eqb (Line a) (Line b) && Z.eqb (Column a) (Column b).

(** lexer.EOF is the rune -1. *)
Definition EOF : Z := -1.

Record Token := mkToken {
  Type_ : Z;
  Value_ : string;
  Pos : Position
}.

(** Go's [==] on two lexer.Token structs: field-wise comparison. *)
Definition Token_eqb (a b : Token) : bool :=
  Z.eqb (Type_ a) (Type_ b) && String.eqb (Value_ a) (Value_ b)
  && Position_eqb (Pos a) (Pos b).

Definition Token_EOF (t : Token) : bool := Z.eqb (Type_ t) EOF.

(** Modelled from the spec: the peeking cursor of package lexer (its source
    is not part of nodes.go).  [peek]/[next] skip elided token kinds and
    yield the EOF token past the end; the raw operations see every token. *)
Record PeekingLexer := mkLexer {
  tokens : list Token;
  rawCursor : nat;
  cursor : nat;
  eof : Token;
  elide : Z -> bool
}.

Fixpoint peek_from (el : Z -> bool) (eofTok : Token) (ts : list Token) (n : nat) : Token :=
  match ts with
  | [] => eofTok
  | t :: rest =>
      if el (Type_ t) then peek_from el eofTok rest n
      else match n with
           | O => t
           | S n' => peek_from el eofTok rest n'
           end
  end.

Definition lexer_Peek (p : PeekingLexer) (n : nat) : Token :=
  peek_from (elide p) (eof p) (skipn (rawCursor p) (tokens p)) n.

(** Returns the token and the number of raw tokens stepped over
    (0 when only elided tokens or nothing is left). *)
Fixpoint next_from (el : Z -> bool) (ts : list Token) (skipped : nat) : option (Token * nat) :=
  match ts with
  | [] => None
  | t :: rest =>
      if el (Type_ t) then next_from el rest (S skipped)
      else Some (t, S skipped)
  end.

Definition lexer_Next (p : PeekingLexer) : Token * PeekingLexer :=
  match next_from (elide p) (skipn (rawCursor p) (tokens p)) 0 with
  | Some (t, k) =>
      (t, mkLexer (tokens p) (rawCursor p + k)%nat (S (cursor p)) (eof p) (elide p))
  | None =>
      (eof p, mkLexer (tokens p) (Nat.max (rawCursor p) (List.length (tokens p)))
                      (cursor p) (eof p) (elide p))
  end.

Definition lexer_RawPeek (p : PeekingLexer) (n : nat) : Token :=
  nth (rawCursor p + n)%nat (tokens p) (eof p).

Definition lexer_Range (p : PeekingLexer) (a b : nat) : list Token :=
  firstn (b - a)%nat (skipn a (tokens p)).

(** ** Errors

    A formatted error keeps its format string and, next to it, the
    arguments in order, each rendered as a string. *)

Inductive error :=
| UnexpectedTokenError (Unexpected : Token) (Expected : string)
| Errorf (pos : Position) (msg : string) (args : list string)
| fmt_Errorf (msg : string) (args : list string)
| Wrapf (pos : option Position) (name : string) (inner : error)
| NextMatch
| UserError (msg : string).

Definition Z_string (z : Z) : string := NilZero.string_of_int (Z.to_int z).

(** Position.String(): [file:line:col], or [line:col] without a file name. *)
Definition Position_String (p : Position) : string :=
  if String.eqb (Filename p) "" then Z_string (Line p) ++ ":" ++ Z_string (Column p)
  else Filename p ++ ":" ++ Z_string (Line p) ++ ":" ++ Z_string (Column p).

Definition nearestPos (toks : list Token) : option Position :=
  match toks with
  | [] => None
  | t :: _ => Some (Pos t)
  end.

(** [decorate]: both the fmt.Errorf("%s: %w") and the Wrapf arm, told apart
    by the position being absent or present. *)
Definition decorate (err : option error) (pos : option Position) (name : string)
  : option error :=
  match err with
  | None => None
  | Some e => Some (Wrapf pos name e)
  end.

(** ** Types (reflect.Type) *)

Inductive Kind :=
| Bool | Int | Int8 | Int16 | Int32 | Int64
| Uint | Uint8 | Uint16 | Uint32 | Uint64
| Float32 | Float64 | String_ | Struct | Ptr | Slice | Map.

Definition Kind_eqb (a b : Kind) : bool :=
  match a, b with
  | Bool, Bool | Int, Int | Int8, Int8 | Int16, Int16 | Int32, Int32
  | Int64, Int64 | Uint, Uint | Uint8, Uint8 | Uint16, Uint16
  | Uint32, Uint32 | Uint64, Uint64 | Float32, Float32 | Float64, Float64
  | String_, String_ | Struct, Struct | Ptr, Ptr | Slice, Slice | Map, Map => true
  | _, _ => false
  end.

(** A basic type carries its name ([int], or [MyInt] for [type MyInt int]);
    a struct type its name and field list; [TMap] stands for the kinds
    setField has no case for. *)
Inductive rtype :=
| TBasic (name : string) (k : Kind)
| TStruct (name : string) (fields : list (string * rtype))
| TPtr (elem : rtype)
| TSlice (elem : rtype)
| TMap (name : string).

Fixpoint rtype_eqb (a b : rtype) {struct a} : bool :=
  match a, b with
  | TBasic n k, TBasic n' k' => String.eqb n n' && Kind_eqb k k'
  | TStruct n fs, TStruct n' fs' =>
      String.eqb n n' &&
      (fix go (l l' : list (string * rtype)) : bool :=
         match l, l' with
         | [], [] => true
         | (x, t) :: r, (x', t') :: r' => String.eqb x x' && rtype_eqb t t' && go r r'
         | _, _ => false
         end) fs fs'
  | TPtr e, TPtr e' => rtype_eqb e e'
  | TSlice e, TSlice e' => rtype_eqb e e'
  | TMap n, TMap n' => String.eqb n n'
  | _, _ => false
  end.

Definition kindOf (t : rtype) : Kind :=
  match t with
  | TBasic _ k => k
  | TStruct _ _ => Struct
  | TPtr _ => Ptr
  | TSlice _ => Slice
  | TMap _ => Map
  end.

(** reflect.Type.Name(): empty for unnamed composite types. *)
Definition typeName (t : rtype) : string :=
  match t with
  | TBasic n _ => n
  | TStruct n _ => n
  | TMap n => n
  | TPtr _ | TSlice _ => ""
  end.

(** reflect.Type.String(). *)
Fixpoint typeString (t : rtype) : string :=
  match t with
  | TBasic n _ => n
  | TStruct n _ => n
  | TMap n => n
  | TPtr e => "*" ++ typeString e
  | TSlice e => "[]" ++ typeString e
  end.

Definition tBool := TBasic "bool" Bool.
Definition tInt := TBasic "int" Int.
Definition tInt32 := TBasic "int32" Int32.
Definition tString := TBasic "string" String_.

Definition positionType : rtype :=
  TStruct "lexer.Position"
    [("Filename", tString); ("Offset", tInt); ("Line", tInt); ("Column", tInt)].
Definition tokenType : rtype :=
  TStruct "lexer.Token"
    [("Type", tInt32); ("Value", tString); ("Pos", positionType)].
Definition tokensType : rtype := TSlice tokenType.

(** ** strconv.ParseInt / strconv.ParseUint (Go standard library)

    conform calls them with base 0: the base is read off the prefix and
    underscores are allowed where underscoreOK accepts them. *)

Inductive NumError := ErrSyntax | ErrRange.

Definition NumError_string (e : NumError) : string :=
  match e with
  | ErrSyntax => "invalid syntax"
  | ErrRange => "value out of range"
  end.

Definition byte (c : ascii) : Z := Z.of_nat (nat_of_ascii c).
Definition lower (c : ascii) : Z := Z.lor (byte c) 32.

Definition is_digit (c : ascii) : bool := (48 <=? byte c) && (byte c <=? 57).
Definition is_lower_az (c : ascii) : bool := (97 <=? lower c) && (lower c <=? 122).

Definition maxUint64 : Z := 2 ^ 64 - 1.

Fixpoint ParseUint_loop (cs : list ascii) (base : Z) (base0 : bool)
    (cutoff maxVal n : Z) (underscores : bool) : Z * option NumError * bool :=
  match cs with
  | [] => (n, None, underscores)
  | c :: rest =>
      if (byte c =? 95) && base0 then
        ParseUint_loop rest base base0 cutoff maxVal n true
      else
        let d := if is_digit c then Some (byte c - 48)
                 else if is_lower_az c then Some (lower c - 97 + 10)
                 else None in
        match d with
        | None => (0, Some ErrSyntax, underscores)
        | Some d =>
            if base <=? d then (0, Some ErrSyntax, underscores)
            else if cutoff <=? n then (maxVal, Some ErrRange, underscores)
            else
              let n' := n * base in
              let n1 := (n' + d) mod 2 ^ 64 in
              if (n1 <? n') || (maxVal <? n1) then (maxVal, Some ErrRange, underscores)
              else ParseUint_loop rest base base0 cutoff maxVal n1 underscores
        end
  end.

(** underscoreOK: underscores only between digits or after a base prefix. *)
Fixpoint underscoreOK_loop (cs : list ascii) (hex : bool) (i : ascii) : bool :=
  match cs with
  | [] => negb (Ascii.eqb i "_")
  | c :: rest =>
      if is_digit c || (hex && (97 <=? lower c) && (lower c <=? 102)) then
        underscoreOK_loop rest hex "0"%char
      else if byte c =? 95 then
        if negb (Ascii.eqb i "0") then false
        else underscoreOK_loop rest hex "_"%char
      else if Ascii.eqb i "_" then false
      else underscoreOK_loop rest hex "!"%char
  end.

Definition is_base_prefix (c : ascii) : bool :=
  (lower c =? 98) || (lower c =? 111) || (lower c =? 120).

Definition underscoreOK (s : list ascii) : bool :=
  let s1 := match s with
            | c :: r => if (byte c =? 45) || (byte c =? 43) then r else s
            | [] => s
            end in
  match s1 with
  | z :: p :: r =>
      if (byte z =? 48) && is_base_prefix p then
        underscoreOK_loop r (lower p =? 120) "0"%char
      else underscoreOK_loop s1 false "^"%char
  | _ => underscoreOK_loop s1 false "^"%char
  end.

Definition ParseUint_chars (s : list ascii) (base bitSize : Z) : Z * option NumError :=
  match s with
  | [] => (0, Some ErrSyntax)
  | c0 :: _ =>
      let base0 := base =? 0 in
      let '(b, digits, ok) :=
        if (2 <=? base) && (base <=? 36) then (base, s, true)
        else if base0 then
          if byte c0 =? 48 then
            match s with
            | _ :: p :: r =>
                if (3 <=? Z.of_nat (List.length s)) && (lower p =? 98) then (2, r, true)
                else if (3 <=? Z.of_nat (List.length s)) && (lower p =? 111) then (8, r, true)
                else if (3 <=? Z.of_nat (List.length s)) && (lower p =? 120) then (16, r, true)
                else (8, List.tl s, true)
            | _ => (8, List.tl s, true)
            end
          else (10, s, true)
        else (base, s, false) in
      if negb ok then (0, Some ErrSyntax)
      else
        let bitSize := if bitSize =? 0 then 64 else bitSize in
        if (bitSize <? 0) || (64 <? bitSize) then (0, Some ErrSyntax)
        else
          let cutoff := maxUint64 / b + 1 in
          let maxVal := 2 ^ bitSize - 1 in
          let '(n, e, underscores) :=
            ParseUint_loop digits b base0 cutoff maxVal 0 false in
          match e with
          | Some _ => (n, e)
          | None =>
              if underscores && negb (underscoreOK s) then (0, Some ErrSyntax)
              else (n, None)
          end
  end.

Definition ParseUint (s : string) (base bitSize : Z) : Z * option NumError :=
  ParseUint_chars (list_ascii_of_string s) base bitSize.

Definition ParseInt (s : string) (base bitSize : Z) : Z * option NumError :=
  match list_ascii_of_string s with
  | [] => (0, Some ErrSyntax)
  | c :: r =>
      let '(neg, body) :=
        if byte c =? 43 then (false, r)
        else if byte c =? 45 then (true, r)
        else (false, c :: r) in
      let '(un, e) := ParseUint_chars body base bitSize in
      match e with
      | Some ErrSyntax => (0, e)
      | _ =>
          let bitSize := if bitSize =? 0 then 64 else bitSize in
          let cutoff := 2 ^ (bitSize - 1) in
          if negb neg && (cutoff <=? un) then (cutoff - 1, Some ErrRange)
          else if neg && (cutoff <? un) then (- cutoff, Some ErrRange)
          else (if neg then - un else un, None)
      end
  end.

(** strconv.IntSize on a 64-bit platform. *)
Definition IntSize : Z := 64.

(** What a Go [panic] carries: a runtime message, or an error value. *)
Inductive panicValue :=
| PanicString (msg : string)
| PanicError (e : error).
Coercion PanicString : string >-> panicValue.

Inductive outcome (A : Type) :=
| Done (a : A)
| Panic (v : panicValue).
Arguments Done {A} a.
Arguments Panic {A} v.

Definition sizeOfKind (kind : Kind) : outcome Z :=
  match kind with
  | Int8 | Uint8 => Done 8
  | Int16 | Uint16 => Done 16
  | Int32 | Uint32 | Float32 => Done 32
  | Int64 | Uint64 | Float64 => Done 64
  | Int | Uint => Done IntSize
  | _ => Panic "unsupported kind"
  end.

Definition obind {A B : Type} (m : outcome A) (k : A -> outcome B) : outcome B :=
  match m with
  | Done a => k a
  | Panic v => Panic v
  end.

Notation "x <- m ;; k" := (obind m (fun x => k))
  (at level 61, m at next level, right associativity).
Notation "' pat <- m ;; k" := (obind m (fun x => match x with pat => k end))
  (at level 61, pat pattern, m at next level, right associativity).

Definition is_some_error (e : option error) : bool :=
  match e with
  | Some _ => true
  | None => false
  end.

(** Go's [append(out, v...)]: appending nothing to a nil slice leaves it nil. *)
Definition go_append {A : Type} (out : option (list A)) (v : option (list A))
  : option (list A) :=
  match v with
  | None | Some [] => out
  | Some l => Some (match out with None => l | Some o => (o ++ l)%list end)
  end.

(** [len] of a possibly nil slice. *)
Definition go_len {A : Type} (out : option (list A)) : nat :=
  match out with
  | None => O
  | Some l => List.length l
  end.

Definition elems {A : Type} (out : option (list A)) : list A :=
  match out with
  | None => []
  | Some l => l
  end.

Definition is_nil {A : Type} (out : option (list A)) : bool :=
  match out with
  | None => true
  | Some _ => false
  end.

(** A storage location: a heap cell and a path of struct-field indices. *)
Definition loc : Type := nat * list nat.

Set Implicit Arguments.

Section Engine.

(** Floating point is kept abstract: [float] is the float64 carrier. *)
Variable float : Type.

(** ** Values (the data behind a reflect.Value) *)

Inductive Value :=
| VBool (t : rtype) (b : bool)
| VInt (t : rtype) (n : Z)
| VUint (t : rtype) (n : Z)
| VFloat (t : rtype) (x : float)
| VString (t : rtype) (s : string)
| VStruct (t : rtype) (fs : list Value)
| VPtr (t : rtype) (target : option loc)
| VSlice (t : rtype) (xs : option (list Value))
| VMap (t : rtype).

Definition typeOf (v : Value) : rtype :=
  match v with
  | VBool t _ | VInt t _ | VUint t _ | VFloat t _ | VString t _
  | VStruct t _ | VPtr t _ | VSlice t _ | VMap t => t
  end.

Definition Heap : Type := list Value.

(** A reflect.Value: either addressable storage, or a detached datum. *)
Inductive RValue :=
| RAddr (l : loc)
| RImm (v : Value).

(** The two fields of structLexerField that nodes.go reads. *)
Record structLexerField := mkField {
  Name : string;
  Index : list nat
}.


Record contextFieldSet := mkFieldSet {
  cfs_tokens : list Token;
  cfs_strct : RValue;
  cfs_field : structLexerField;
  cfs_fieldValue : option (list RValue)
}.

(** Modelled from the spec: parseContext and its methods live in a file of
    the repository that is not under src/.  Section 3 and 4.1 of the spec
    give the fields (cursor, deferred capture log, deepest error,
    case-insensitive predicate) and the operations below. *)
Record parseContext := mkContext {
  lex : PeekingLexer;
  deepestError : option error;
  deepestErrorDepth : nat;
  caseInsensitive : Z -> bool;
  apply : list contextFieldSet
}.

Definition with_lex (c : parseContext) (l : PeekingLexer) : parseContext :=
  mkContext l (deepestError c) (deepestErrorDepth c) (caseInsensitive c) (apply c).

Definition with_apply (c : parseContext) (a : list contextFieldSet) : parseContext :=
  mkContext (lex c) (deepestError c) (deepestErrorDepth c) (caseInsensitive c) a.


(** What the engine takes from its surroundings.
    - floating point: the zero, the rounding to float32, [x + 1] and
      strconv.ParseFloat;
    - user hooks: [capturer T] is the Capture method found in the method set
      of [*T], if any, acting on the receiver's storage; [unmarshaler T]
      likewise for encoding.TextUnmarshaler;
    - Modelled from the spec: the stop policy, which the spec leaves
      "intentionally partially specified"; it may inspect the error, the
      parent and the branch and hands back the parent it leaves behind;
    - MaxIterations, a package variable (default [defaultMaxIterations]). *)
Class Platform := {
  float_zero : float;
  float_round32 : float -> float;
  float_add1 : float -> float;
  ParseFloat : string -> Z -> float * option NumError;
  capturer : rtype -> option (list string -> Value -> Value * option error);
  unmarshaler : rtype -> option (string -> Value -> Value * option error);
  Stop : parseContext -> error -> parseContext -> bool * parseContext;
  MaxIterations : nat
}.

Context {P : Platform}.

(** The zero value reflect.New allocates. *)
Fixpoint zero (t : rtype) : Value :=
  match t with
  | TBasic _ k =>
      match k with
      | Bool => VBool t false
      | Int | Int8 | Int16 | Int32 | Int64 => VInt t 0
      | Uint | Uint8 | Uint16 | Uint32 | Uint64 => VUint t 0
      | Float32 | Float64 => VFloat t float_zero
      | String_ => VString t ""
      | _ => VMap t
      end
  | TStruct _ fields =>
      VStruct t ((fix go (l : list (string * rtype)) : list Value :=
                    match l with
                    | [] => []
                    | (_, ft) :: r => zero ft :: go r
                    end) fields)
  | TPtr _ => VPtr t None
  | TSlice _ => VSlice t None
  | TMap _ => VMap t
  end.

Definition Position_value (p : Position) : Value :=
  VStruct positionType
    [VString tString (Filename p); VInt tInt (Offset p);
     VInt tInt (Line p); VInt tInt (Column p)].

Definition Token_value (t : Token) : Value :=
  VStruct tokenType
    [VInt tInt32 (Type_ t); VString tString (Value_ t); Position_value (Pos t)].

Definition Tokens_value (ts : list Token) : Value :=
  VSlice tokensType (Some (map Token_value ts)).

(** ** The heap of addressable cells *)

Fixpoint get_path (v : Value) (p : list nat) : option Value :=
  match p with
  | [] => Some v
  | i :: p' =>
      match v with
      | VStruct _ fs =>
          match nth_error fs i with
          | Some f => get_path f p'
          | None => None
          end
      | _ => None
      end
  end.

Fixpoint list_set {A : Type} (l : list A) (i : nat) (x : A) : list A :=
  match l, i with
  | [], _ => []
  | _ :: r, O => x :: r
  | a :: r, S i' => a :: list_set r i' x
  end.

Fixpoint set_path (v : Value) (p : list nat) (new : Value) : option Value :=
  match p with
  | [] => Some new
  | i :: p' =>
      match v with
      | VStruct t fs =>
          match nth_error fs i with
          | Some f =>
              match set_path f p' new with
              | Some f' => Some (VStruct t (list_set fs i f'))
              | None => None
              end
          | None => None
          end
      | _ => None
      end
  end.

Definition load (h : Heap) (l : loc) : outcome Value :=
  match nth_error h (fst l) with
  | Some cell =>
      match get_path cell (snd l) with
      | Some v => Done v
      | None => Panic "reflect: field index out of range"
      end
  | None => Panic "reflect: invalid address"
  end.

Definition store (h : Heap) (l : loc) (v : Value) : outcome Heap :=
  match nth_error h (fst l) with
  | Some cell =>
      match set_path cell (snd l) v with
      | Some cell' => Done (list_set h (fst l) cell')
      | None => Panic "reflect: field index out of range"
      end
  | None => Panic "reflect: invalid address"
  end.

(** reflect.New(t).Elem(): a fresh addressable zero value. *)
Definition alloc (h : Heap) (t : rtype) : Heap * loc :=
  ((h ++ [zero t])%list, (List.length h, [])).

Definition rv_load (h : Heap) (v : RValue) : outcome Value :=
  match v with
  | RAddr l => load h l
  | RImm d => Done d
  end.

Definition CanAddr (v : RValue) : bool :=
  match v with
  | RAddr _ => true
  | RImm _ => false
  end.

(** reflect.ValueOf(s) for a Go string. *)
Definition ValueOf_string (s : string) : RValue := RImm (VString tString s).

(** Value.String(): the string itself for a string kind, a placeholder
    naming the type otherwise. *)
Definition Value_String (d : Value) : string :=
  match d with
  | VString _ s => s
  | _ => "<" ++ typeString (typeOf d) ++ " Value>"
  end.

(** ** conform *)

Definition fields_eqb (a b : list (string * rtype)) : bool :=
  rtype_eqb (TStruct "" a) (TStruct "" b).

(** Identical underlying types, as Go's conversion rules ask for. *)
Definition underlying_eqb (a b : rtype) : bool :=
  match a, b with
  | TBasic _ k, TBasic _ k' => Kind_eqb k k'
  | TStruct _ fs, TStruct _ fs' => fields_eqb fs fs'
  | _, _ => rtype_eqb a b
  end.

(** Value.Convert(t), called by conform only when the kinds agree and the
    types differ; it panics when Go has no such conversion. *)
Definition Convert (d : Value) (t : rtype) : outcome Value :=
  match d with
  | VBool _ b => Done (VBool t b)
  | VInt _ n => Done (VInt t n)
  | VUint _ n => Done (VUint t n)
  | VFloat _ x => Done (VFloat t x)
  | VString _ s => Done (VString t s)
  | VStruct t0 fs =>
      if underlying_eqb t0 t then Done (VStruct t fs)
      else Panic "reflect.Value.Convert: value cannot be converted"
  | VPtr (TPtr e0) tgt =>
      match t with
      | TPtr e =>
          if underlying_eqb e0 e then Done (VPtr t tgt)
          else Panic "reflect.Value.Convert: value cannot be converted"
      | _ => Panic "reflect.Value.Convert: value cannot be converted"
      end
  | _ => Panic "reflect.Value.Convert: value cannot be converted"
  end.

Definition isIntKind (k : Kind) : bool :=
  match k with
  | Int | Int8 | Int16 | Int32 | Int64 => true
  | _ => false
  end.

Definition isUintKind (k : Kind) : bool :=
  match k with
  | Uint | Uint8 | Uint16 | Uint32 | Uint64 => true
  | _ => false
  end.

Definition isFloatKind (k : Kind) : bool :=
  match k with
  | Float32 | Float64 => true
  | _ => false
  end.

Definition invalid_integer (s : string) (e : NumError) : error :=
  fmt_Errorf "invalid integer %q: %s" [s; NumError_string e].

Definition push (out : option (list RValue)) (v : RValue) : option (list RValue) :=
  Some (elems out ++ [v])%list.

(** The values reflect.New(t).Elem() followed by SetInt/SetUint/SetFloat
    builds are kept as detached data: nothing after conform looks at their
    address. *)
Fixpoint conform_loop (h : Heap) (t : rtype) (values : list RValue)
    (out : option (list RValue)) {struct values}
  : outcome (option (list RValue) * option error) :=
  match values with
  | [] => Done (out, None)
  | v :: rest =>
      d0 <- rv_load h v ;;
      let deref := negb (rtype_eqb t (typeOf d0)) && Kind_eqb (kindOf t) Ptr
                   && negb (Kind_eqb (kindOf (typeOf d0)) Ptr) in
      if deref && negb (CanAddr v) then Done (out, None)
      else
        let v1 := match v with
                  | RAddr l => if deref then RImm (VPtr (TPtr (typeOf d0)) (Some l)) else v
                  | RImm _ => v
                  end in
        d <- rv_load h v1 ;;
        if Kind_eqb (kindOf (typeOf d)) (kindOf t) then
          if rtype_eqb (typeOf d) t then conform_loop h t rest (push out v1)
          else d' <- Convert d t ;; conform_loop h t rest (push out (RImm d'))
        else
          let kind := kindOf t in
          if isIntKind kind then
            bits <- sizeOfKind kind ;;
            match ParseInt (Value_String d) 0 bits with
            | (_, Some e) => Done (None, Some (invalid_integer (Value_String d) e))
            | (n, None) => conform_loop h t rest (push out (RImm (VInt t n)))
            end
          else if isUintKind kind then
            bits <- sizeOfKind kind ;;
            match ParseUint (Value_String d) 0 bits with
            | (_, Some e) => Done (None, Some (invalid_integer (Value_String d) e))
            | (n, None) => conform_loop h t rest (push out (RImm (VUint t n)))
            end
          else if Kind_eqb kind Bool then
            conform_loop h t rest (push out (RImm (VBool tBool true)))
          else if isFloatKind kind then
            bits <- sizeOfKind kind ;;
            match ParseFloat (Value_String d) bits with
            | (_, Some e) => Done (None, Some (invalid_integer (Value_String d) e))
            | (x, None) =>
                let x' := if Kind_eqb kind Float32 then float_round32 x else x in
                conform_loop h t rest (push out (RImm (VFloat t x')))
            end
          else conform_loop h t rest (push out v1)
  end.

Definition conform (h : Heap) (t : rtype) (values : option (list RValue))
  : outcome (option (list RValue) * option error) :=
  conform_loop h t (elems values) None.

(** ** setField *)

Definition methodsOfPtrTo {M : Type} (table : rtype -> option M) (t : rtype) : option M :=
  match t with
  | TPtr _ => None
  | _ => table t
  end.

(** Value.Field(i), with FieldByIndex's stepping through embedded pointers. *)
Definition Field (h : Heap) (v : RValue) (i : nat) : outcome RValue :=
  match v with
  | RAddr (a, p) =>
      d <- load h (a, p) ;;
      match d with
      | VStruct _ fs =>
          if (i <? List.length fs)%nat then Done (RAddr (a, (p ++ [i])%list))
          else Panic "reflect: Field index out of range"
      | _ => Panic "reflect: call of reflect.Value.Field on non-struct Value"
      end
  | RImm d =>
      match d with
      | VStruct _ fs =>
          match nth_error fs i with
          | Some f => Done (RImm f)
          | None => Panic "reflect: Field index out of range"
          end
      | _ => Panic "reflect: call of reflect.Value.Field on non-struct Value"
      end
  end.

Fixpoint FieldByIndex_from (h : Heap) (v : RValue) (index : list nat) (first : bool)
  : outcome RValue :=
  match index with
  | [] => Done v
  | i :: rest =>
      d <- rv_load h v ;;
      v' <- (if first then Done v
             else match d with
                  | VPtr (TPtr (TStruct _ _)) None =>
                      Panic "reflect: indirection through nil pointer to embedded struct"
                  | VPtr (TPtr (TStruct _ _)) (Some l) => Done (RAddr l)
                  | _ => Done v
                  end) ;;
      f <- Field h v' i ;;
      FieldByIndex_from h f rest false
  end.

Definition FieldByIndex (h : Heap) (v : RValue) (index : list nat) : outcome RValue :=
  match index with
  | [i] => Field h v i
  | _ => FieldByIndex_from h v index true
  end.

(** Value.Set and the SetInt/SetBool/... family: the destination must be
    addressable, the types must agree. *)
Definition Set_ (h : Heap) (f : RValue) (d : Value) : outcome Heap :=
  match f with
  | RAddr l =>
      old <- load h l ;;
      if rtype_eqb (typeOf d) (typeOf old) then store h l d
      else Panic "reflect.Set: value is not assignable to the destination type"
  | RImm _ => Panic "reflect: reflect.Value.Set using unaddressable value"
  end.

(** [v.Interface().(string)]. *)
Definition as_string (d : Value) : outcome string :=
  match d with
  | VString t s =>
      if rtype_eqb t tString then Done s
      else Panic "interface conversion: interface {} is not string"
  | _ => Panic "interface conversion: interface {} is not string"
  end.

Fixpoint strings_of (h : Heap) (vs : list RValue) : outcome (list string) :=
  match vs with
  | [] => Done []
  | v :: rest =>
      d <- rv_load h v ;;
      s <- as_string d ;;
      r <- strings_of h rest ;;
      Done (s :: r)
  end.

(** The strings Value.String() gives, joined by the empty separator. *)
Fixpoint join_Strings (h : Heap) (vs : list RValue) : outcome string :=
  match vs with
  | [] => Done ""
  | v :: rest =>
      d <- rv_load h v ;;
      r <- join_Strings h rest ;;
      Done (Value_String d ++ r)
  end.

Definition wrap_int (bits n : Z) : Z :=
  (n + 2 ^ (bits - 1)) mod 2 ^ bits - 2 ^ (bits - 1).

Definition wrap_uint (bits n : Z) : Z := n mod 2 ^ bits.

(** The TextUnmarshaler arm: one UnmarshalText call per value, stopping at
    the first error. *)
Fixpoint unmarshal_each (um : string -> Value -> Value * option error)
    (h : Heap) (l : loc) (vs : list RValue) : outcome (Heap * option error) :=
  match vs with
  | [] => Done (h, None)
  | v :: rest =>
      d <- rv_load h v ;;
      s <- as_string d ;;
      recv <- load h l ;;
      let '(recv', e) := um s recv in
      h' <- store h l recv' ;;
      match e with
      | Some _ => Done (h', e)
      | None => unmarshal_each um h' l rest
      end
  end.

(** The slice arm for element types that implement Capture: a fresh
    element per value, captured into, then appended. *)
Fixpoint capture_each (cap : list string -> Value -> Value * option error)
    (base : rtype) (byPtr : bool) (h : Heap) (f : RValue) (vs : list RValue)
  : outcome (Heap * option error) :=
  match vs with
  | [] => Done (h, None)
  | v :: rest =>
      let '(h1, l) := alloc h base in
      d <- rv_load h1 v ;;
      s <- as_string d ;;
      recv <- load h1 l ;;
      let '(recv', e) := cap [s] recv in
      h2 <- store h1 l recv' ;;
      match e with
      | Some _ => Done (h2, e)
      | None =>
          let elt := if byPtr then VPtr (TPtr base) (Some l) else recv' in
          cur <- rv_load h2 f ;;
          match cur with
          | VSlice t xs =>
              h3 <- Set_ h2 f (VSlice t (Some (elems xs ++ [elt])%list)) ;;
              capture_each cap base byPtr h3 f rest
          | _ => Panic "reflect: call of reflect.Append on non-slice Value"
          end
      end
  end.

(** reflect.Append(f, vs...): every appended value must have the element
    type; appending nothing returns the slice unchanged. *)
Fixpoint load_elems (h : Heap) (elemT : rtype) (vs : list RValue) : outcome (list Value) :=
  match vs with
  | [] => Done []
  | v :: rest =>
      d <- rv_load h v ;;
      if rtype_eqb (typeOf d) elemT then
        r <- load_elems h elemT rest ;; Done (d :: r)
      else Panic "reflect.Set: value is not assignable to the element type"
  end.

(** The string arm: each value's String() is concatenated onto the field. *)
Fixpoint concat_each (h : Heap) (f : RValue) (vs : list RValue) : outcome Heap :=
  match vs with
  | [] => Done h
  | v :: rest =>
      cur <- rv_load h f ;;
      d <- rv_load h v ;;
      h' <- Set_ h f (VString (typeOf cur) (Value_String cur ++ Value_String d)) ;;
      concat_each h' f rest
  end.

Definition not_correct_type (fv : Value) (t : rtype) : error :=
  fmt_Errorf "value %q is not correct type %s" [Value_String fv; typeString t].

Definition unsupported_field_type (t : rtype) (name : string) : error :=
  fmt_Errorf "unsupported field type %s for field %s" [typeString t; name].

(** Lines 659-696: the switch on the destination kind, once conform has
    produced [fv]. *)
Definition assignScalar (h : Heap) (field : structLexerField) (f : RValue)
    (fd fv : Value) : outcome (Heap * option error) :=
  let k := kindOf (typeOf fd) in
  if isIntKind k then
    if negb (rtype_eqb (typeOf fv) (typeOf fd)) then
      match fd with
      | VInt t n =>
          bits <- sizeOfKind k ;;
          h' <- Set_ h f (VInt t (wrap_int bits (wrap_int 64 (n + 1)))) ;;
          Done (h', None)
      | _ => Panic "reflect: call of reflect.Value.Int on non-int Value"
      end
    else h' <- Set_ h f fv ;; Done (h', None)
  else if isUintKind k then
    if negb (rtype_eqb (typeOf fv) (typeOf fd)) then
      match fd with
      | VUint t n =>
          bits <- sizeOfKind k ;;
          h' <- Set_ h f (VUint t (wrap_uint bits (wrap_uint 64 (n + 1)))) ;;
          Done (h', None)
      | _ => Panic "reflect: call of reflect.Value.Uint on non-uint Value"
      end
    else h' <- Set_ h f fv ;; Done (h', None)
  else if isFloatKind k then
    if negb (rtype_eqb (typeOf fv) (typeOf fd)) then
      match fd with
      | VFloat t x =>
          let x' := float_add1 x in
          h' <- Set_ h f (VFloat t (if Kind_eqb k Float32 then float_round32 x' else x')) ;;
          Done (h', None)
      | _ => Panic "reflect: call of reflect.Value.Float on non-float Value"
      end
    else h' <- Set_ h f fv ;; Done (h', None)
  else if Kind_eqb k Bool || Kind_eqb k Struct then
    match fd, fv with
    | VBool t _, VBool _ b => h' <- Set_ h f (VBool t b) ;; Done (h', None)
    | _, _ =>
        if negb (rtype_eqb (typeOf fv) (typeOf fd)) then
          Done (h, Some (not_correct_type fv (typeOf fd)))
        else h' <- Set_ h f fv ;; Done (h', None)
    end
  else Done (h, Some (unsupported_field_type (typeOf fd) (Name field))).

Definition sliceBase (elemT : rtype) : rtype :=
  match elemT with
  | TPtr e => e
  | _ => elemT
  end.

Definition setField_body (h : Heap) (toks : list Token) (strct : RValue)
    (field : structLexerField) (fieldValue : option (list RValue))
  : outcome (Heap * option error) :=
  f0 <- FieldByIndex h strct (Index field) ;;
  fd0 <- rv_load h f0 ;;
  (* Any kind of pointer, hydrate it first. *)
  '(h, f) <- (match fd0 with
              | VPtr (TPtr e) None =>
                  let '(h1, l) := alloc h e in
                  h2 <- Set_ h1 f0 (VPtr (TPtr e) (Some l)) ;;
                  Done (h2, RAddr l)
              | VPtr _ (Some l) => Done (h, RAddr l)
              | VPtr _ None => Panic "reflect: Elem of invalid pointer type"
              | _ => Done (h, f0)
              end) ;;
  fd <- rv_load h f ;;
  let ft := typeOf fd in
  if rtype_eqb ft tokenType then
    match toks with
    | [] => Panic "runtime error: index out of range [0] with length 0"
    | t0 :: _ => h' <- Set_ h f (Token_value t0) ;; Done (h', None)
    end
  else if rtype_eqb ft tokensType then
    h' <- Set_ h f (Tokens_value toks) ;; Done (h', None)
  else
    let hook :=
      match f with
      | RAddr l =>
          match methodsOfPtrTo capturer ft with
          | Some cap => Some (inl (cap, l))
          | None =>
              match methodsOfPtrTo unmarshaler ft with
              | Some um => Some (inr (um, l))
              | None => None
              end
          end
      | RImm _ => None
      end in
    match hook with
    | Some (inl (cap, l)) =>
        ifv <- strings_of h (elems fieldValue) ;;
        let '(recv', e) := cap ifv fd in
        h' <- store h l recv' ;;
        Done (h', e)
    | Some (inr (um, l)) => unmarshal_each um h l (elems fieldValue)
    | None =>
        match ft with
        | TSlice sliceElemType =>
            match methodsOfPtrTo capturer (sliceBase sliceElemType) with
            | Some cap =>
                capture_each cap (sliceBase sliceElemType)
                  (Kind_eqb (kindOf sliceElemType) Ptr) h f (elems fieldValue)
            | None =>
                '(fieldValue, err) <- conform h sliceElemType fieldValue ;;
                match err with
                | Some _ => Done (h, err)
                | None =>
                    ds <- load_elems h sliceElemType (elems fieldValue) ;;
                    match fd, ds with
                    | VSlice _ _, [] => h' <- Set_ h f fd ;; Done (h', None)
                    | VSlice t xs, _ =>
                        h' <- Set_ h f (VSlice t (Some (elems xs ++ ds)%list)) ;;
                        Done (h', None)
                    | _, _ => Panic "reflect: call of reflect.Append on non-slice Value"
                    end
                end
            end
        | _ =>
            if Kind_eqb (kindOf ft) String_ then
              (* Strings concatenate all captured tokens. *)
              '(fieldValue, err) <- conform h ft fieldValue ;;
              match err with
              | Some _ => Done (h, err)
              | None => h' <- concat_each h f (elems fieldValue) ;; Done (h', None)
              end
            else
              (* Coalesce multiple tokens into one. *)
              fieldValue <- (if (1 <? go_len fieldValue)%nat then
                               s <- join_Strings h (elems fieldValue) ;;
                               Done (Some [ValueOf_string s])
                             else Done fieldValue) ;;
              '(fieldValue, err) <- conform h ft fieldValue ;;
              match err with
              | Some _ => Done (h, err)
              | None =>
                  match elems fieldValue with
                  | [] => Panic "runtime error: index out of range [0] with length 0"
                  | fv0 :: _ =>
                      fv <- rv_load h fv0 ;;
                      assignScalar h field f fd fv
                  end
              end
        end
    end.

Definition setField (h : Heap) (toks : list Token) (strct : RValue)
    (field : structLexerField) (fieldValue : option (list RValue))
  : outcome (Heap * option error) :=
  '(h', err) <- setField_body h toks strct field fieldValue ;;
  match err with
  | None => Done (h', None)
  | Some _ =>
      sd <- rv_load h' strct ;;
      Done (h', decorate err (nearestPos toks) (typeName (typeOf sd) ++ "." ++ Name field))
  end.

(** ** The operations of the parse context *)

(** Modelled from the spec: [peek(k)], [next()], [raw_peek(k)],
    [raw_cursor()], [range(a,b)]; the token source reports no error of its
    own, the error result the callers test is always absent. *)
Definition Peek (c : parseContext) (n : nat) : Token * option error :=
  (lexer_Peek (lex c) n, None).

Definition Next (c : parseContext) : Token * option error * parseContext :=
  let '(t, l) := lexer_Next (lex c) in (t, None, with_lex c l).

Definition RawPeek (c : parseContext) (n : nat) : Token * option error :=
  (lexer_RawPeek (lex c) n, None).

Definition RawCursor (c : parseContext) : nat := rawCursor (lex c).
Definition Cursor (c : parseContext) : nat := cursor (lex c).
Definition Range (c : parseContext) (a b : nat) : list Token := lexer_Range (lex c) a b.

(** Modelled from the spec: [branch()] - same stream, independent cursor
    at the current position, empty deferred log. *)
Definition Branch (c : parseContext) : parseContext := with_apply c [].

(** Modelled from the spec: [accept(branch)] - parent cursor := branch
    cursor; parent log := parent log ++ branch log. *)
Definition Accept (c branch : parseContext) : parseContext :=
  mkContext (lex branch) (deepestError c) (deepestErrorDepth c)
            (caseInsensitive c) (apply c ++ apply branch)%list.

(** Modelled from the spec: [maybe_update_error(err)] - if the cursor is at
    least the recorded deepest cursor, replace the deepest error. *)
Definition MaybeUpdateError (c : parseContext) (err : error) : parseContext :=
  if (deepestErrorDepth c <=? Cursor c)%nat then
    mkContext (lex c) (Some err) (Cursor c) (caseInsensitive c) (apply c)
  else c.

(** Modelled from the spec: [defer(range, parent_ref, field, values)]. *)
Definition Defer (c : parseContext) (toks : list Token) (strct : RValue)
    (field : structLexerField) (fieldValue : option (list RValue)) : parseContext :=
  with_apply c (apply c ++ [mkFieldSet toks strct field fieldValue])%list.

(** Modelled from the spec: [apply()] - run the deferred captures in order
    through setField; on the first failure stop and return the error (the
    earlier writes stay).  The log is emptied once every entry has run. *)
Fixpoint Apply_entries (h : Heap) (entries : list contextFieldSet)
  : outcome (Heap * option error) :=
  match entries with
  | [] => Done (h, None)
  | e :: rest =>
      '(h', err) <- setField h (cfs_tokens e) (cfs_strct e) (cfs_field e)
                      (cfs_fieldValue e) ;;
      match err with
      | Some _ => Done (h', err)
      | None => Apply_entries h' rest
      end
  end.

Definition Apply (c : parseContext) (h : Heap)
  : outcome (option error * parseContext * Heap) :=
  '(h', err) <- Apply_entries h (apply c) ;;
  match err with
  | Some _ => Done (err, c, h')
  | None => Done (None, with_apply c [], h')
  end.

(** ** Parse nodes *)

(** What a Parse call leaves behind: the value list ([None] is Go's nil
    slice), the error, and the context and heap it mutated in place. *)
Record Ret := mkRet {
  r_out : option (list RValue);
  r_err : option error;
  r_ctx : parseContext;
  r_heap : Heap
}.

(** The [node] interface.  [String] is the EBNF rendering, produced by a
    part of the repository that is not under src/; every node carries it. *)
Record node := mkNode {
  Parse : parseContext -> Heap -> RValue -> outcome Ret;
  String : string
}.


(** *** parseable: proxy to a user Parseable implementation.  The user's
    Parse method acts on the fresh receiver and on the peeking lexer. *)
Record parseable := mkParseable {
  p_t : rtype;
  p_impl : PeekingLexer -> Value -> Value * PeekingLexer * option error
}.

Definition parseable_Parse (p : parseable) (ctx : parseContext) (h : Heap)
    (parent : RValue) : outcome Ret :=
  let '(h1, l) := alloc h (p_t p) in
  recv <- load h1 l ;;
  let '(recv', lx, err) := p_impl p (lex ctx) recv in
  h2 <- store h1 l recv' ;;
  let ctx' := with_lex ctx lx in
  match err with
  | Some NextMatch => Done (mkRet None None ctx' h2)
  | Some e => Done (mkRet None (Some e) ctx' h2)
  | None => Done (mkRet (Some [RAddr l]) None ctx' h2)
  end.

(** *** strct: @@ *)
Record strct := mkStrct {
  typ : rtype;
  expr : node;
  tokensFieldIndex : option (list nat);
  posFieldIndex : option (list nat);
  endPosFieldIndex : option (list nat)
}.

(** typ.FieldByName(name), restricted to the struct's own fields, and the
    test on the field's type. *)
Fixpoint fieldIndex (fields : list (string * rtype)) (name : string) (want : rtype)
    (i : nat) : option (list nat) :=
  match fields with
  | [] => None
  | (n, t) :: rest =>
      if String.eqb n name then (if rtype_eqb t want then Some [i] else None)
      else fieldIndex rest name want (S i)
  end.

Definition newStrct (t : rtype) (e : node) : strct :=
  let fields := match t with TStruct _ fs => fs | _ => [] end in
  mkStrct t e (fieldIndex fields "Tokens" tokensType 0)
          (fieldIndex fields "Pos" positionType 0)
          (fieldIndex fields "EndPos" positionType 0).

Definition inject (h : Heap) (index : option (list nat)) (v : RValue) (d : Value)
  : outcome Heap :=
  match index with
  | None => Done h
  | Some idx => f <- FieldByIndex h v idx ;; Set_ h f d
  end.

Definition maybeInjectStartToken (s : strct) (h : Heap) (token : Token) (v : RValue) :=
  inject h (posFieldIndex s) v (Position_value (Pos token)).

Definition maybeInjectEndToken (s : strct) (h : Heap) (token : Token) (v : RValue) :=
  inject h (endPosFieldIndex s) v (Position_value (Pos token)).

Definition maybeInjectTokens (s : strct) (h : Heap) (toks : list Token) (v : RValue) :=
  inject h (tokensFieldIndex s) v (Tokens_value toks).

Definition strct_Parse (s : strct) (ctx : parseContext) (h : Heap)
    (parent : RValue) : outcome Ret :=
  let '(h, l) := alloc h (typ s) in
  let sv := RAddr l in
  let start := RawCursor ctx in
  match Peek ctx 0 with
  | (_, Some err) => Done (mkRet None (Some err) ctx h)
  | (t, None) =>
      h <- maybeInjectStartToken s h t sv ;;
      r <- Parse (expr s) ctx h sv ;;
      match r_err r with
      | Some err =>
          (* Best effort to give partial AST. *)
          '(_, ctx, h) <- Apply (r_ctx r) (r_heap r) ;;
          Done (mkRet (Some [sv]) (Some err) (MaybeUpdateError ctx err) h)
      | None =>
          if is_nil (r_out r) then Done (mkRet None None (r_ctx r) (r_heap r))
          else
            let ctx := r_ctx r in
            let end_ := RawCursor ctx in
            let '(t, _) := RawPeek ctx 0 in
            h <- maybeInjectEndToken s (r_heap r) t sv ;;
            h <- maybeInjectTokens s h (Range ctx start end_) sv ;;
            '(err, ctx, h) <- Apply ctx h ;;
            Done (mkRet (Some [sv]) err ctx h)
      end
  end.

Definition nat_string (n : nat) : string :=
  NilEmpty.string_of_uint (Nat.to_uint n).

(** *** group: ( expr ), ( expr )*, ( expr )+, ( expr )?, ( expr )! *)
Inductive groupMatchMode :=
| groupMatchOnce
| groupMatchZeroOrOne
| groupMatchZeroOrMore
| groupMatchOneOrMore
| groupMatchNonEmpty.

Record group := mkGroup {
  g_expr : node;
  g_mode : groupMatchMode;
  g_String : string
}.

(** How a [for] loop was left: by a [return] inside the body, or by
    falling out of it ([break], or the loop condition) with the counter,
    the accumulated output and the state at that point. *)
Inductive loopExit :=
| Returned (i : nat) (r : Ret)
| Fell (i : nat) (out : option (list RValue)) (ctx : parseContext) (h : Heap).

(** [for ; matches < max; matches++]: [fuel] is [max - matches]. *)
Fixpoint group_loop (e : node) (parent : RValue) (fuel matches : nat)
    (out : option (list RValue)) (ctx : parseContext) (h : Heap) : outcome loopExit :=
  match fuel with
  | O => Done (Fell matches out ctx h)
  | S fuel' =>
      let branch := Branch ctx in
      r <- Parse e branch h parent ;;
      let out := go_append out (r_out r) in
      match r_err r with
      | Some err =>
          let ctx := MaybeUpdateError ctx err in
          (* Optional part failed to match. *)
          let '(stop, ctx) := Stop ctx err (r_ctx r) in
          if stop then Done (Returned matches (mkRet out (Some err) ctx (r_heap r)))
          else Done (Fell matches out ctx (r_heap r))
      | None =>
          let ctx := Accept ctx (r_ctx r) in
          if is_nil (r_out r) then Done (Fell matches out ctx (r_heap r))
          else group_loop e parent fuel' (S matches) out ctx (r_heap r)
      end
  end.

Definition too_many_iterations (pos : Position) (name : string) : error :=
  Errorf pos "too many iterations of %s (> %d)" [name; nat_string MaxIterations].

Definition group_Parse (g : group) (ctx : parseContext) (h : Heap)
    (parent : RValue) : outcome Ret :=
  match g_mode g with
  | groupMatchNonEmpty =>
      r <- Parse (g_expr g) ctx h parent ;;
      match r_err r with
      | Some _ => Done r
      | None =>
          if (go_len (r_out r) =? 0)%nat then
            let '(t, _) := Peek (r_ctx r) 0 in
            Done (mkRet (r_out r)
                    (Some (Errorf (Pos t) "sub-expression %s cannot be empty" [g_String g]))
                    (r_ctx r) (r_heap r))
          else Done r
      end
  | groupMatchOnce => Parse (g_expr g) ctx h parent
  | mode =>
      let '(min, max) :=
        match mode with
        | groupMatchZeroOrOne => (0, 1)
        | groupMatchZeroOrMore => (0, MaxIterations)
        | groupMatchOneOrMore => (1, MaxIterations)
        | _ => (1, 1)
        end%nat in
      x <- group_loop (g_expr g) parent max 0 None ctx h ;;
      match x with
      | Returned _ r => Done r
      | Fell matches out ctx h =>
          let '(t, _) := Peek ctx 0 in
          if (MaxIterations <=? matches)%nat then
            Panic (PanicError (too_many_iterations (Pos t) (g_String g)))
          else if (matches <? min)%nat then
            Done (mkRet out
                    (Some (Errorf (Pos t) "sub-expression %s must match at least once"
                             [g_String g]))
                    ctx h)
          else
            (* Something like "a"? is a successful match and parsing should proceed. *)
            let out := if (min =? 0)%nat && is_nil out then Some [] else out in
            Done (mkRet out None ctx h)
      end
  end.

(** *** disjunction: expr { "|" expr } *)
Fixpoint disjunction_loop (nodes : list node) (parent : RValue)
    (deepest : nat) (firstError : option error) (firstValues : option (list RValue))
    (ctx : parseContext) (h : Heap) : outcome Ret :=
  match nodes with
  | [] =>
      match firstError with
      | Some fe => Done (mkRet firstValues (Some fe) (MaybeUpdateError ctx fe) h)
      | None => Done (mkRet None None ctx h)
      end
  | a :: rest =>
      let branch := Branch ctx in
      r <- Parse a branch h parent ;;
      match r_err r with
      | Some err =>
          (* If this branch progressed too far and still didn't match, error out. *)
          let '(stop, ctx) := Stop ctx err (r_ctx r) in
          if stop then Done (mkRet (r_out r) (Some err) ctx (r_heap r))
          else if (deepest <=? Cursor (r_ctx r))%nat then
            disjunction_loop rest parent (Cursor (r_ctx r)) (Some err) (r_out r)
              ctx (r_heap r)
          else
            disjunction_loop rest parent deepest firstError firstValues ctx (r_heap r)
      | None =>
          if negb (is_nil (r_out r)) then
            let '(bt, _) := Peek (r_ctx r) 0 in
            let '(ct, _) := Peek ctx 0 in
            if Token_eqb bt ct then
              Panic (PanicError
                (Errorf (Pos bt)
                   "branch %s was accepted but did not progress the lexer at %s (%q)"
                   [String a; Position_String (Pos bt); Value_ bt]))
            else Done (mkRet (r_out r) None (Accept ctx (r_ctx r)) (r_heap r))
          else
            disjunction_loop rest parent deepest firstError firstValues ctx (r_heap r)
      end
  end.

Definition disjunction_Parse (nodes : list node) (ctx : parseContext) (h : Heap)
    (parent : RValue) : outcome Ret :=
  disjunction_loop nodes parent 0 None None ctx h.

(** *** sequence: node ...   (a linked list; every cell has its own
    EBNF rendering, used in the unexpected-token error) *)
Inductive sequence :=
| mkSequence (head : bool) (n : node) (str : string) (next : option sequence).

Fixpoint sequence_loop (n : sequence) (isFirst : bool) (parent : RValue)
    (out : option (list RValue)) (ctx : parseContext) (h : Heap) : outcome Ret :=
  match n with
  | mkSequence _ nd str next =>
      r <- Parse nd ctx h parent ;;
      let out := go_append out (r_out r) in
      match r_err r with
      | Some err => Done (mkRet out (Some err) (r_ctx r) (r_heap r))
      | None =>
          if is_nil (r_out r) then
            (* Early exit if first value doesn't match, otherwise all values must match. *)
            if isFirst then Done (mkRet None None (r_ctx r) (r_heap r))
            else
              match Peek (r_ctx r) 0 with
              | (_, Some err) => Done (mkRet None (Some err) (r_ctx r) (r_heap r))
              | (token, None) =>
                  Done (mkRet out (Some (UnexpectedTokenError token str))
                          (r_ctx r) (r_heap r))
              end
          else
            match next with
            | Some n' => sequence_loop n' false parent out (r_ctx r) (r_heap r)
            | None => Done (mkRet out None (r_ctx r) (r_heap r))
            end
      end
  end.

Definition sequence_Parse (s : sequence) (ctx : parseContext) (h : Heap)
    (parent : RValue) : outcome Ret :=
  sequence_loop s true parent None ctx h.

(** *** capture: @expr *)
Record capture := mkCapture {
  c_field : structLexerField;
  c_node : node
}.

Definition capture_Parse (c : capture) (ctx : parseContext) (h : Heap)
    (parent : RValue) : outcome Ret :=
  let start := RawCursor ctx in
  r <- Parse (c_node c) ctx h parent ;;
  let ctx := r_ctx r in
  let ctx := if negb (is_nil (r_out r)) then
               Defer ctx (Range ctx start (RawCursor ctx)) parent (c_field c) (r_out r)
             else ctx in
  match r_err r with
  | Some err => Done (mkRet (Some [parent]) (Some err) ctx (r_heap r))
  | None =>
      if is_nil (r_out r) then Done (mkRet None None ctx (r_heap r))
      else Done (mkRet (Some [parent]) None ctx (r_heap r))
  end.

(** *** reference: named lexer token reference *)
Record reference := mkReference {
  ref_typ : Z;
  identifier : string
}.

Definition reference_Parse (r : reference) (ctx : parseContext) (h : Heap)
    (parent : RValue) : outcome Ret :=
  match Peek ctx 0 with
  | (_, Some err) => Done (mkRet None (Some err) ctx h)
  | (token, None) =>
      if negb (Type_ token =? ref_typ r) then Done (mkRet None None ctx h)
      else
        let '(_, _, ctx) := Next ctx in
        Done (mkRet (Some [ValueOf_string (Value_ token)]) None ctx h)
  end.

(** *** optional: [ expr ] *)
Definition optional_Parse (o : node) (ctx : parseContext) (h : Heap)
    (parent : RValue) : outcome Ret :=
  let branch := Branch ctx in
  r <- Parse o branch h parent ;;
  let out := r_out r in
  x <- (match r_err r with
        | Some err =>
            (* Optional part failed to match. *)
            let '(stop, ctx) := Stop ctx err (r_ctx r) in
            if stop then Done (inl (mkRet out (Some err) ctx (r_heap r)))
            else Done (inr ctx)
        | None => Done (inr (Accept ctx (r_ctx r)))
        end) ;;
  match x with
  | inl ret => Done ret
  | inr ctx =>
      let out := if is_nil out then Some [] else out in
      Done (mkRet out None ctx (r_heap r))
  end.

(** *** repetition: { expr } *)
Fixpoint repetition_loop (n : node) (parent : RValue) (fuel i : nat)
    (out : option (list RValue)) (ctx : parseContext) (h : Heap) : outcome loopExit :=
  match fuel with
  | O => Done (Fell i out ctx h)
  | S fuel' =>
      let branch := Branch ctx in
      r <- Parse n branch h parent ;;
      let out := go_append out (r_out r) in
      match r_err r with
      | Some err =>
          (* Optional part failed to match. *)
          let '(stop, ctx) := Stop ctx err (r_ctx r) in
          if stop then Done (Returned i (mkRet out (Some err) ctx (r_heap r)))
          else Done (Fell i out ctx (r_heap r))
      | None =>
          let ctx := Accept ctx (r_ctx r) in
          if is_nil (r_out r) then Done (Fell i out ctx (r_heap r))
          else repetition_loop n parent fuel' (S i) out ctx (r_heap r)
      end
  end.

Definition repetition_Parse (n : node) (self : string) (ctx : parseContext) (h : Heap)
    (parent : RValue) : outcome Ret :=
  x <- repetition_loop n parent MaxIterations 0 None ctx h ;;
  match x with
  | Returned _ r => Done r
  | Fell i out ctx h =>
      if (MaxIterations <=? i)%nat then
        let '(t, _) := Peek ctx 0 in
        Panic (PanicError (too_many_iterations (Pos t) self))
      else
        let out := if is_nil out then Some [] else out in
        Done (mkRet out None ctx h)
  end.

(** *** literal: "..."[:type] *)
Record literal := mkLiteral {
  l_s : string;
  l_t : Z;
  l_tt : string
}.

(** strings.EqualFold on ASCII letters (the simple folding of the other
    scripts is left out). *)
Definition fold_ascii (c : ascii) : ascii :=
  if (65 <=? byte c) && (byte c <=? 90) then ascii_of_nat (nat_of_ascii c + 32) else c.

Fixpoint EqualFold (a b : string) : bool :=
  match a, b with
  | EmptyString, EmptyString => true
  | String.String x a', String.String y b' =>
      Ascii.eqb (fold_ascii x) (fold_ascii y) && EqualFold a' b'
  | _, _ => false
  end.

Definition literal_equal (l : literal) (ctx : parseContext) (token : Token) : bool :=
  if caseInsensitive ctx (Type_ token) then EqualFold (Value_ token) (l_s l)
  else String.eqb (Value_ token) (l_s l).

Definition literal_Parse (l : literal) (ctx : parseContext) (h : Heap)
    (parent : RValue) : outcome Ret :=
  match Peek ctx 0 with
  | (_, Some err) => Done (mkRet None (Some err) ctx h)
  | (token, None) =>
      let equal := literal_equal l ctx token in
      if equal && ((l_t l =? -1) || (l_t l =? Type_ token)) then
        match Next ctx with
        | (_, Some err, ctx) => Done (mkRet None (Some err) ctx h)
        | (next, None, ctx) =>
            Done (mkRet (Some [ValueOf_string (Value_ next)]) None ctx h)
        end
      else Done (mkRet None None ctx h)
  end.

(** *** negation *)
Definition negation_Parse (n : node) (ctx : parseContext) (h : Heap)
    (parent : RValue) : outcome Ret :=
  (* A branch to avoid advancing the parser; neither Stop nor Accept is
     called on it. *)
  let branch := Branch ctx in
  match Peek ctx 0 with
  | (_, Some err) => Done (mkRet None (Some err) ctx h)
  | (notEOF, None) =>
      if Token_EOF notEOF then
        (* EOF cannot match a negation, which expects something *)
        Done (mkRet None None ctx h)
      else
        r <- Parse n branch h parent ;;
        if negb (is_nil (r_out r)) && negb (is_some_error (r_err r)) then
          Done (mkRet None (Some (Errorf (Pos notEOF) "unexpected '%s'" [Value_ notEOF]))
                  ctx (r_heap r))
        else
          (* Just give the next token *)
          match Next ctx with
          | (_, Some err, ctx) => Done (mkRet None (Some err) ctx (r_heap r))
          | (next, None, ctx) =>
              Done (mkRet (Some [ValueOf_string (Value_ next)]) None ctx (r_heap r))
          end
  end.

(** The node values of the operator tree. *)
Definition parseable_node (p : parseable) (str : string) : node :=
  mkNode (parseable_Parse p) str.
Definition strct_node (s : strct) (str : string) : node :=
  mkNode (strct_Parse s) str.
Definition group_node (g : group) : node :=
  mkNode (group_Parse g) (g_String g).
Definition disjunction_node (nodes : list node) (str : string) : node :=
  mkNode (disjunction_Parse nodes) str.
Definition sequence_node (s : sequence) : node :=
  mkNode (sequence_Parse s) (match s with mkSequence _ _ str _ => str end).
Definition capture_node (c : capture) (str : string) : node :=
  mkNode (capture_Parse c) str.
Definition reference_node (r : reference) (str : string) : node :=
  mkNode (reference_Parse r) str.
Definition optional_node (o : node) (str : string) : node :=
  mkNode (optional_Parse o) str.
Definition repetition_node (n : node) (str : string) : node :=
  mkNode (repetition_Parse n str) str.
Definition literal_node (l : literal) (str : string) : node :=
  mkNode (literal_Parse l) str.
Definition negation_node (n : node) (str : string) : node :=
  mkNode (negation_Parse n) str.

End Engine.

Unset Implicit Arguments.

Arguments VBool {float} t b.
Arguments VInt {float} t n.
Arguments VUint {float} t n.
Arguments VFloat {float} t x.
Arguments VString {float} t s.
Arguments VStruct {float} t fs.
Arguments VPtr {float} t target.
Arguments VSlice {float} t xs.
Arguments VMap {float} t.
Arguments RAddr {float} l.
Arguments RImm {float} v.
Arguments Position_value {float} p.
Arguments Token_value {float} t.
Arguments Tokens_value {float} ts.
Arguments ValueOf_string {float} s.
Arguments MaxIterations {float Platform}.
Arguments float_zero {float Platform}.
Arguments Stop {float Platform} _ _ _.
Arguments capturer {float Platform} _.
Arguments unmarshaler {float Platform} _.
Arguments float_round32 {float Platform} _.
Arguments float_add1 {float Platform} _.
Arguments ParseFloat {float Platform} _ _.
Arguments literal_node {float} l str.
Arguments reference_node {float} r str.
Arguments literal_Parse {float} l ctx h parent.
Arguments reference_Parse {float} r ctx h parent.

(** ** A concrete platform and the grammars of the spec's scenarios *)

Definition defaultMaxIterations : nat := N.to_nat 1000000.

(** Modelled from the spec: the minimum contract of the stop policy,
    "true when the branch consumed at least one non-elided token past its
    start"; the parent is left as it is. *)
Definition minimalStop {float : Type} (ctx : parseContext float) (err : error)
    (branch : parseContext float) : bool * parseContext float :=
  ((Cursor ctx <? Cursor branch)%nat, ctx).

(** A platform without floating-point fields and without user hooks. *)
Definition plainPlatform (maxIterations : nat) : Platform unit := {|
  float_zero := tt;
  float_round32 := fun x => x;
  float_add1 := fun x => x;
  ParseFloat := fun _ _ => (tt, Some ErrSyntax);
  capturer := fun _ => None;
  unmarshaler := fun _ => None;
  Stop := minimalStop;
  MaxIterations := maxIterations
|}.

Definition tok (ty : Z) (v : string) (off : Z) : Token :=
  mkToken ty v (mkPosition "" off 1 (off + 1)).

Definition eofToken (off : Z) : Token := mkToken EOF "" (mkPosition "" off 1 (off + 1)).

(** A fresh context over a token list: nothing elided, nothing
    case-insensitive. *)
Definition newContext (ts : list Token) : parseContext unit :=
  mkContext (mkLexer ts 0 0 (eofToken (Z.of_nat (List.length ts))) (fun _ => false))
            None 0 (fun _ => false) [].

(** The parent handed to a root node. *)
Definition noParent : RValue unit := RImm (VMap (TMap "")).

(** Scenario 1 of the spec: [Struct{ count: Int <- Repetition(Literal "+") }]. *)
Definition counterType : rtype := TStruct "Counter" [("Count", tInt)].

Definition plusLiteral : node unit := literal_node (mkLiteral "+" (-1) "") "'+'".

Definition counterGrammar (P : Platform unit) : node unit :=
  strct_node
    (newStrct counterType
       (capture_node (mkCapture (mkField "Count" [0%nat])
                        (repetition_node plusLiteral "{ '+' }"))
                     "@{ '+' }"))
    "Counter".

(** The same counter with the capture inside the repetition: one deferred
    capture per token. *)
Definition counterGrammarPerToken (P : Platform unit) : node unit :=
  strct_node
    (newStrct counterType
       (repetition_node
          (capture_node (mkCapture (mkField "Count" [0%nat]) plusLiteral) "@'+'")
          "{ @'+' }"))
    "Counter".

Definition plusTokens : list Token := [tok 43 "+" 0; tok 43 "+" 1; tok 43 "+" 2].

(** Further small grammars. *)
Definition lit (s : string) : node unit := literal_node (mkLiteral s (-1) "") s.

Definition abSequence : sequence unit :=
  mkSequence true (lit "a") "a b" (Some (mkSequence false (lit "b") "b" None)).

Definition wordType : rtype := TStruct "Word" [("S", tString)].

Definition wordCapture : capture unit :=
  mkCapture (mkField "S" [0%nat]) (sequence_node abSequence).

Definition wordGrammar (P : Platform unit) : strct unit :=
  newStrct wordType (capture_node wordCapture "@(a b)").

Definition ctx_ac : parseContext unit := newContext [tok 97 "a" 0; tok 99 "c" 1].

(** [ctx_ac] once its first token has been read. *)
Definition ctx_ac1 : parseContext unit :=
  with_lex ctx_ac (snd (lexer_Next (lex ctx_ac))).

Definition flagType : rtype := TStruct "Flag" [("On", tBool)].

Definition P5 : Platform unit := plainPlatform 5.
Definition Pdefault : Platform unit := plainPlatform defaultMaxIterations.

(** The non-elided tokens still ahead of the cursor. *)
Definition remaining (p : PeekingLexer) : list Token :=
  filter (fun t => negb (elide p (Type_ t))) (skipn (rawCursor p) (tokens p)).

(** A user Parseable that reads one token and then fails. *)
Definition failingParseable : parseable unit :=
  mkParseable tBool
    (fun lx recv => (recv, snd (lexer_Next lx), Some (UserError "boom"))).

Definition failingNode (P : Platform unit) : node unit :=
  parseable_node failingParseable "Failing".

(** [seq_prefix parent s c h vs cell c' h']: running the items of [s] from
    context [c] and heap [h], the items before [cell] all matched (non-nil,
    no error) with the outputs [vs], leaving [c'] and [h']. *)
Inductive seq_prefix {float : Type} (parent : RValue float)
  : sequence float -> parseContext float -> Heap float -> list (list (RValue float))
    -> sequence float -> parseContext float -> Heap float -> Prop :=
| prefix_here s c h : seq_prefix parent s c h [] s c h
| prefix_step hd nd str n' c h rb v vs cell c2 h2 :
    Parse nd c h parent = Done rb ->
    r_err rb = None ->
    r_out rb = Some v ->
    seq_prefix parent n' (r_ctx rb) (r_heap rb) vs cell c2 h2 ->
    seq_prefix parent (mkSequence hd nd str (Some n')) c h (v :: vs) cell c2 h2.

(** The slice a sequence has accumulated after the outputs [vs]. *)
Definition accumulated {A : Type} (out : option (list A)) (vs : list (list A))
  : option (list A) :=
  fold_left (fun o v => go_append o (Some v)) vs out.

(** A loop exit that respects the iteration ceiling: a [return] or [break]
    happens in an iteration below the ceiling, and the loop condition ends
    the loop at the ceiling. *)
Definition within_ceiling (max : nat) {float : Type} (x : loopExit float) : Prop :=
  match x with
  | Returned i _ => (i < max)%nat
  | Fell i _ _ _ => (i <= max)%nat
  end.

(** The constructor of a datum agrees with the kind of its type. *)
Definition well_kinded {float : Type} (d : Value float) : bool :=
  match d with
  | VBool t _ => Kind_eqb (kindOf t) Bool
  | VInt t _ => isIntKind (kindOf t)
  | VUint t _ => isUintKind (kindOf t)
  | VFloat t _ => isFloatKind (kindOf t)
  | VString t _ => Kind_eqb (kindOf t) String_
  | VStruct t _ => Kind_eqb (kindOf t) Struct
  | VPtr t _ => Kind_eqb (kindOf t) Ptr
  | VSlice t _ => Kind_eqb (kindOf t) Slice
  | VMap t => Kind_eqb (kindOf t) Map
  end.

(** The boolean a captured datum stands for in a bool field. *)
Definition bool_of {float : Type} (d : Value float) : bool :=
  match d with
  | VBool _ b => b
  | _ => true
  end.

(** [typed h t v]: the value behind [v] can be read and has type [t]. *)
Definition typed {float : Type} (h : Heap float) (t : rtype) (v : RValue float) : Prop :=
  exists d, rv_load h v = Done d /\ typeOf d = t.

Definition isNumericKind (k : Kind) : bool :=
  isIntKind k || isUintKind k || isFloatKind k.



(** [disj_run parent c h nodes fs c' h']: the alternatives [nodes], tried in
    order from context [c] and heap [h], each either did not match (nil, no
    error) or failed with an error the stop policy let pass; [fs] lists the
    failures in order as (cursor of the branch, error, values), and [c'],
    [h'] are the parent context and the heap afterwards. *)
Inductive disj_run {float : Type} {P : Platform float} (parent : RValue float)
  : parseContext float -> Heap float -> list (node float)
    -> list (nat * error * option (list (RValue float)))
    -> parseContext float -> Heap float -> Prop :=
| run_done c h : disj_run parent c h [] [] c h
| run_no_match a rest c h rb fs c2 h2 :
    Parse a (Branch c) h parent = Done rb ->
    r_err rb = None ->
    r_out rb = None ->
    disj_run parent c (r_heap rb) rest fs c2 h2 ->
    disj_run parent c h (a :: rest) fs c2 h2
| run_failed a rest c h rb e c' fs c2 h2 :
    Parse a (Branch c) h parent = Done rb ->
    r_err rb = Some e ->
    Stop c e (r_ctx rb) = (false, c') ->
    disj_run parent c' (r_heap rb) rest fs c2 h2 ->
    disj_run parent c h (a :: rest) ((Cursor (r_ctx rb), e, r_out rb) :: fs) c2 h2.

(** The candidate failure the disjunction keeps while it goes through the
    failures [fs]: the state (deepestError, firstError, firstValues). *)
Fixpoint pick {A : Type} (deepest : nat) (fe : option error) (fv : option (list A))
    (fs : list (nat * error * option (list A)))
  : nat * option error * option (list A) :=
  match fs with
  | [] => (deepest, fe, fv)
  | (cur, e, v) :: r =>
      if (deepest <=? cur)%nat then pick cur (Some e) v r
      else pick deepest fe fv r
  end.

(** What a sequence returns for the item outputs [vs]: their
    concatenation, or Go's nil slice when there is nothing in it. *)
Definition joined {A : Type} (vs : list (list A)) : option (list A) :=
  match List.concat vs with
  | [] => None
  | l => Some l
  end.

(** The values a run of captured token texts stands for. *)
Definition stringValues {float : Type} (ss : list string) : list (RValue float) :=
  map ValueOf_string ss.

(** strings.Join(ss, ""). *)
Definition joinStrings (ss : list string) : string := fold_right append "" ss.

(** [scalar_field h strct field l fd]: the field descriptor leads to the
    addressable cell [l] holding [fd], a well-formed value that is not a
    pointer, a token, a token slice, a slice or a string, and whose type
    has neither a Capture nor a TextUnmarshaler method: the field setField
    treats in its last part (lines 644-696). *)
Definition scalar_field {float : Type} {P : Platform float} (h : Heap float)
    (strct : RValue float) (field : structLexerField) (l : loc) (fd : Value float)
  : Prop :=
  FieldByIndex h strct (Index field) = Done (RAddr l)
  /\ load h l = Done fd
  /\ Kind_eqb (kindOf (typeOf fd)) Ptr = false
  /\ well_kinded fd = true
  /\ rtype_eqb (typeOf fd) tokenType = false
  /\ rtype_eqb (typeOf fd) tokensType = false
  /\ methodsOfPtrTo capturer (typeOf fd) = None
  /\ methodsOfPtrTo unmarshaler (typeOf fd) = None
  /\ Kind_eqb (kindOf (typeOf fd)) Slice = false
  /\ Kind_eqb (kindOf (typeOf fd)) String_ = false.

(** Fixtures for the concrete instances below. *)
Definition identRef : reference := mkReference 2 "Ident".

Definition ctx_plus : parseContext unit := newContext plusTokens.

Definition nonEmptyGroup (P : Platform unit) : group unit :=
  mkGroup (repetition_node (lit "x") "{ x }") groupMatchNonEmpty "( { x } )!".

Definition modeGroup (m : groupMatchMode) : group unit := mkGroup (lit "a") m "( a )".

Definition listType : rtype := TStruct "List" [("Items", TSlice tString)].
Definition tokType : rtype := TStruct "T" [("Tok", tokenType); ("Toks", tokensType)].
Definition optType : rtype := TStruct "Opt" [("On", TPtr tBool)].
Definition mapType : rtype := TStruct "M" [("M", TMap "map[string]int")].
Definition outerType : rtype := TStruct "Outer" [("Inner", wordType)].
Definition posType : rtype := TStruct "Node" [("Pos", positionType); ("S", tString)].

Definition heapOf (t : rtype) : Heap unit := [zero (P:=P5) t].
Definition cell0 : RValue unit := RAddr (0%nat, []).
Definition field0 (name : string) : structLexerField := mkField name [0%nat].

Definition ctx_ab : parseContext unit := newContext [tok 97 "a" 0; tok 98 "b" 1].
Definition ctx_ab1 : parseContext unit := with_lex ctx_ab (snd (lexer_Next (lex ctx_ab))).
Definition ctx_ab2 : parseContext unit := with_lex ctx_ab1 (snd (lexer_Next (lex ctx_ab1))).
Definition ctx_ac2 : parseContext unit := with_lex ctx_ac1 (snd (lexer_Next (lex ctx_ac1))).

(** Modelled from the spec: a stricter stop policy, true once the branch
    is [n] tokens ahead of the parent. *)
Definition lookaheadStop {float : Type} (n : nat) (ctx : parseContext float)
    (err : error) (branch : parseContext float) : bool * parseContext float :=
  ((Cursor ctx + n <=? Cursor branch)%nat, ctx).

Definition P5two : Platform unit := {|
  float_zero := tt;
  float_round32 := fun x => x;
  float_add1 := fun x => x;
  ParseFloat := fun _ _ => (tt, Some ErrSyntax);
  capturer := fun _ => None;
  unmarshaler := fun _ => None;
  Stop := lookaheadStop 2;
  MaxIterations := 5
|}.

Definition aThenFail (P : Platform unit) : sequence unit :=
  mkSequence true (lit "a") "a F" (Some (mkSequence false (failingNode P) "F" None)).

Definition oneOrMoreX (P : Platform unit) : node unit :=
  group_node (mkGroup (lit "x") groupMatchOneOrMore "( x )+").

Definition errUnexpectedC : error := UnexpectedTokenError (tok 99 "c" 1) "b".
Definition errNoX : error :=
  Errorf (mkPosition "" 0 1 1) "sub-expression %s must match at least once" ["( x )+"].

Definition heapWord : Heap unit := [VStruct wordType [VString tString "ab"]].

Definition heapOuter : Heap unit :=
  [zero (P:=P5) outerType; VStruct wordType [VString tString "hi"]].

Definition heapOpt : Heap unit :=
  [VStruct optType [VPtr (TPtr tBool) (Some (1%nat, []))]; VBool tBool false].

(** The result of a parse that is known to return. *)
Definition retOf (o : outcome (Ret unit)) : Ret unit :=
  match o with
  | Done r => r
  | Panic _ => mkRet None None (newContext []) []
  end.

Definition runWord : outcome (Ret unit) :=
  strct_Parse (P:=P5) (wordGrammar P5) ctx_ac [] noParent.

(** A counter whose capture sits on an optional literal. *)
Definition optionalCounter (P : Platform unit) : node unit :=
  strct_node
    (newStrct counterType
       (capture_node (mkCapture (field0 "Count") (optional_node (lit "+") "'+'?"))
                     "@('+'?)"))
    "Counter".

(** A platform with one user type implementing Capture: [Upper], a string
    type whose Capture joins the captured texts and refuses an empty list. *)
Definition upperType : rtype := TBasic "Upper" String_.

Definition upperCapture (ss : list string) (recv : Value unit)
  : Value unit * option error :=
  match ss with
  | [] => (recv, Some (UserError "nothing captured"))
  | _ => (VString upperType (joinStrings ss), None)
  end.

Definition Phook : Platform unit := {|
  float_zero := tt;
  float_round32 := fun x => x;
  float_add1 := fun x => x;
  ParseFloat := fun _ _ => (tt, Some ErrSyntax);
  capturer := fun t => if rtype_eqb t upperType then Some upperCapture else None;
  unmarshaler := fun _ => None;
  Stop := minimalStop;
  MaxIterations := 5
|}.

Definition upperStruct : rtype := TStruct "U" [("Name", upperType)].

(** * Properties *)

Section Facts.

Context {float : Type} {P : Platform float}.

Lemma Token_eqb_refl (t : Token) : Token_eqb t t = true.
Proof.
  unfold Token_eqb, Position_eqb.
  rewrite !Z.eqb_refl, !String.eqb_refl. reflexivity.
Qed.

Lemma peek_from_filter el e ts :
  peek_from el e ts 0 = hd e (filter (fun t => negb (el (Type_ t))) ts).
Proof.
  induction ts as [|t ts IH]; simpl; [reflexivity|].
  destruct (el (Type_ t)); simpl; auto.
Qed.

Lemma next_from_filter el ts k t rest :
  filter (fun x => negb (el (Type_ x))) ts = t :: rest ->
  exists n, next_from el ts k = Some (t, n).
Proof.
  revert k. induction ts as [|x ts IH]; intro k; simpl; [discriminate|].
  destruct (el (Type_ x)); simpl; intro H.
  - apply IH. exact H.
  - inversion H; subst. eexists; reflexivity.
Qed.

Lemma next_from_skip el ts k t n :
  next_from el ts k = Some (t, n) ->
  (k < n)%nat /\
  filter (fun x => negb (el (Type_ x))) (skipn (n - k) ts)
  = tl (filter (fun x => negb (el (Type_ x))) ts).
Proof.
  revert k. induction ts as [|x ts IH]; intro k; simpl; [discriminate|].
  destruct (el (Type_ x)) eqn:E; simpl.
  - intro H. apply IH in H. destruct H as [Hlt Hf]. split; [lia|].
    replace (n - k)%nat with (S (n - S k)) by lia. exact Hf.
  - intro H. inversion H; subst. split; [lia|].
    replace (S k - k)%nat with 1%nat by lia. reflexivity.
Qed.

Lemma lexer_Peek_remaining p :
  lexer_Peek p 0 = hd (eof p) (remaining p).
Proof. unfold lexer_Peek, remaining. apply peek_from_filter. Qed.

(** Next on a lexer with a token ahead: that token is returned, the count
    of consumed tokens goes up by one and the token leaves the stream. *)
Lemma lexer_Next_remaining p t rest :
  remaining p = t :: rest ->
  exists p', lexer_Next p = (t, p') /\ remaining p' = rest
             /\ cursor p' = S (cursor p) /\ tokens p' = tokens p
             /\ elide p' = elide p /\ eof p' = eof p.
Proof.
  unfold remaining, lexer_Next. intro H.
  destruct (next_from_filter (elide p) _ 0 _ _ H) as [n E]. rewrite E.
  eexists; split; [reflexivity|]. simpl.
  apply next_from_skip in E. destruct E as [_ Hf].
  rewrite Nat.sub_0_r in Hf. rewrite skipn_skipn in Hf.
  rewrite Nat.add_comm in Hf. rewrite Hf, H. auto.
Qed.

Lemma repetition_loop_Returned (n : node float) parent fuel i out c h i' r :
  repetition_loop n parent fuel i out c h = Done (Returned i' r) ->
  exists e, r_err r = Some e.
Proof.
  revert i out c h. induction fuel as [|fuel IH]; intros i out c h; simpl.
  - discriminate.
  - destruct (Parse n (Branch c) h parent) as [rb|v]; simpl; [|discriminate].
    destruct (r_err rb) as [e|].
    + destruct (Stop c e (r_ctx rb)) as [[|] c']; intro H; inversion H; subst.
      simpl. eauto.
    + destruct (is_nil (r_out rb)); [discriminate|]. apply IH.
Qed.

(** C2 (amended): whenever an optional or a repetition node returns without
    an error, its value list is non-nil, and it is the empty non-nil list
    when the body's first attempt produced nil. *)
Theorem optional_repetition_non_nil_on_success
    (o : node float) (self : string) ctx h parent r :
  optional_Parse o ctx h parent = Done r \/
  repetition_Parse o self ctx h parent = Done r ->
  r_err r = None ->
  exists l, r_out r = Some l /\
    (forall rb, Parse o (Branch ctx) h parent = Done rb -> r_out rb = None -> l = []).
Proof.
  intros [H|H] Herr.
  - unfold optional_Parse in H.
    destruct (Parse o (Branch ctx) h parent) as [rb|v] eqn:Eb; simpl in H;
      [|discriminate].
    destruct (r_err rb) as [e|].
    + destruct (Stop ctx e (r_ctx rb)) as [[|] c']; simpl in H;
        inversion H; subst; simpl in *; [discriminate|].
      destruct (r_out rb) as [l|] eqn:Eo; simpl.
      * exists l. split; [reflexivity|]. intros rb' Hrb' Hn.
        inversion Hrb'; subst. congruence.
      * exists []. auto.
    + simpl in H. inversion H; subst; simpl in *.
      destruct (r_out rb) as [l|] eqn:Eo; simpl.
      * exists l. split; [reflexivity|]. intros rb' Hrb' Hn.
        inversion Hrb'; subst. congruence.
      * exists []. auto.
  - unfold repetition_Parse in H.
    destruct (repetition_loop o parent MaxIterations 0 None ctx h) as [x|v] eqn:El;
      simpl in H; [|discriminate].
    destruct x as [i rr|i out c' h'].
    + inversion H; subst. apply repetition_loop_Returned in El.
      destruct El as [e He]. congruence.
    + destruct (MaxIterations <=? i)%nat eqn:Em; [discriminate|].
      inversion H; subst; simpl in *.
      destruct out as [l|] eqn:Eo; simpl.
      * exists l. split; [reflexivity|]. intros rb Hrb Hn.
        destruct MaxIterations as [|f]; simpl in El; [inversion El|].
        rewrite Hrb in El. simpl in El. rewrite Hn in El. simpl in El.
        destruct (r_err rb) as [e|].
        -- destruct (Stop ctx e (r_ctx rb)) as [[|] c'']; inversion El.
        -- inversion El.
      * exists []. auto.
Qed.

(** C9: a capture node whose child returns a non-nil list enqueues the
    deferred capture for these values whether or not the child also
    failed; with a failing child it then returns the parent together with
    the child's error. *)
Theorem capture_defers_on_error (c : capture float) ctx h parent rb v :
  Parse (c_node c) ctx h parent = Done rb ->
  r_out rb = Some v ->
  let start := RawCursor ctx in
  let ctx' := Defer (r_ctx rb) (Range (r_ctx rb) start (RawCursor (r_ctx rb)))
                    parent (c_field c) (Some v) in
  capture_Parse c ctx h parent = Done (mkRet (Some [parent]) (r_err rb) ctx' (r_heap rb))
  /\ apply ctx' = (apply (r_ctx rb)
                    ++ [mkFieldSet (Range (r_ctx rb) start (RawCursor (r_ctx rb)))
                          parent (c_field c) (Some v)])%list.
Proof.
  intros Hb Ho. simpl. unfold capture_Parse. rewrite Hb. simpl. rewrite Ho. simpl.
  destruct (r_err rb); split; reflexivity.
Qed.




Lemma sequence_loop_prefix parent (s : sequence float) c h vs cell c1 h1 :
  seq_prefix parent s c h vs cell c1 h1 ->
  forall isFirst out,
    sequence_loop s isFirst parent out c h =
    sequence_loop cell (isFirst && match vs with [] => true | _ => false end)
      parent (accumulated out vs) c1 h1.
Proof.
  induction 1 as [s c h|hd nd str n' c h rb v vs cell c2 h2 Hp He Ho _ IH];
    intros isFirst out.
  - rewrite andb_true_r. reflexivity.
  - simpl. rewrite Hp. simpl. rewrite He, Ho. simpl.
    rewrite IH. rewrite andb_false_r. simpl.
    destruct vs; reflexivity.
Qed.


(** C6: in a disjunction, an alternative that succeeds (non-nil, no error)
    on a branch whose cursor is where the parent's is makes the engine
    panic with a positioned error instead of accepting the branch. *)
Theorem disjunction_no_progress_panics (a : node float) rest parent
    deepest firstError firstValues ctx h rb v :
  Parse a (Branch ctx) h parent = Done rb ->
  r_err rb = None ->
  r_out rb = Some v ->
  lex (r_ctx rb) = lex ctx ->
  let bt := lexer_Peek (lex ctx) 0 in
  disjunction_loop (a :: rest) parent deepest firstError firstValues ctx h =
  Panic (PanicError
    (Errorf (Pos bt)
       "branch %s was accepted but did not progress the lexer at %s (%q)"
       [String a; Position_String (Pos bt); Value_ bt])).
Proof.
  intros Hb He Ho Hl bt. simpl. rewrite Hb. simpl. rewrite He, Ho. simpl.
  unfold Peek. rewrite Hl. fold bt. rewrite Token_eqb_refl. reflexivity.
Qed.

Lemma repetition_loop_bound (n : node float) parent fuel i out c h x :
  repetition_loop n parent fuel i out c h = Done x ->
  match x with
  | Returned i' _ => (i' < i + fuel)%nat
  | Fell i' _ _ _ => (i' <= i + fuel)%nat
  end.
Proof.
  revert i out c h. induction fuel as [|fuel IH]; intros i out c h; simpl.
  - intro H. inversion H; subst. lia.
  - destruct (Parse n (Branch c) h parent) as [rb|v]; simpl; [|discriminate].
    destruct (r_err rb) as [e|].
    + destruct (Stop c e (r_ctx rb)) as [[|] c']; intro H; inversion H; subst; lia.
    + destruct (is_nil (r_out rb)).
      * intro H. inversion H; subst. lia.
      * intro H. apply IH in H. destruct x; lia.
Qed.

Lemma group_loop_bound (n : node float) parent fuel i out c h x :
  group_loop n parent fuel i out c h = Done x ->
  match x with
  | Returned i' _ => (i' < i + fuel)%nat
  | Fell i' _ _ _ => (i' <= i + fuel)%nat
  end.
Proof.
  revert i out c h. induction fuel as [|fuel IH]; intros i out c h; simpl.
  - intro H. inversion H; subst. lia.
  - destruct (Parse n (Branch c) h parent) as [rb|v]; simpl; [|discriminate].
    destruct (r_err rb) as [e|].
    + destruct (Stop (MaybeUpdateError c e) e (r_ctx rb)) as [[|] c'];
        intro H; inversion H; subst; lia.
    + destruct (is_nil (r_out rb)).
      * intro H. inversion H; subst. lia.
      * intro H. apply IH in H. destruct x; lia.
Qed.

(** C7: the loop of a repetition, and of a group in ZeroOrMore or
    OneOrMore mode, never runs past MaxIterations; when it gets there the
    parse panics with an error at the position of the current token. *)
Theorem iteration_ceiling (n : node float) (self : string) (g : group float)
    ctx h parent :
  (forall x, repetition_loop n parent MaxIterations 0 None ctx h = Done x ->
             within_ceiling MaxIterations x)
  /\ (forall out c h',
        repetition_loop n parent MaxIterations 0 None ctx h
        = Done (Fell MaxIterations out c h') ->
        repetition_Parse n self ctx h parent =
        Panic (PanicError (too_many_iterations (Pos (lexer_Peek (lex c) 0)) self)))
  /\ (g_mode g = groupMatchZeroOrMore \/ g_mode g = groupMatchOneOrMore ->
      (forall x, group_loop (g_expr g) parent MaxIterations 0 None ctx h = Done x ->
                 within_ceiling MaxIterations x)
      /\ (forall out c h',
            group_loop (g_expr g) parent MaxIterations 0 None ctx h
            = Done (Fell MaxIterations out c h') ->
            group_Parse g ctx h parent =
            Panic (PanicError
                     (too_many_iterations (Pos (lexer_Peek (lex c) 0)) (g_String g))))).
Proof.
  split; [|split].
  - intros x H. apply repetition_loop_bound in H. destruct x; simpl; lia.
  - intros out c h' H. unfold repetition_Parse. rewrite H. simpl.
    rewrite Nat.leb_refl. reflexivity.
  - intros Hm. split.
    + intros x H. apply group_loop_bound in H. destruct x; simpl; lia.
    + intros out c h' H. unfold group_Parse.
      destruct Hm as [Hm|Hm]; rewrite Hm; rewrite H; simpl;
        rewrite Nat.leb_refl; reflexivity.
Qed.


(** C8 (amended): a negation node returns nil at EOF; when its body
    succeeds on the branch (non-nil, no error) it returns the positioned
    error [Errorf pos "unexpected '%s'"] at the peeked token, the main
    context untouched; otherwise it returns the value of the next token of
    the main context, consuming exactly that token. *)
Theorem negation_Parse_spec (n : node float) ctx h parent :
  let notEOF := lexer_Peek (lex ctx) 0 in
  (Token_EOF notEOF = true ->
   negation_Parse n ctx h parent = Done (mkRet None None ctx h))
  /\ (Token_EOF notEOF = false ->
      forall rb, Parse n (Branch ctx) h parent = Done rb ->
      if negb (is_nil (r_out rb)) && negb (is_some_error (r_err rb)) then
        negation_Parse n ctx h parent =
        Done (mkRet None
                (Some (Errorf (Pos notEOF) "unexpected '%s'" [Value_ notEOF]))
                ctx (r_heap rb))
      else
        negation_Parse n ctx h parent =
        Done (mkRet (Some [ValueOf_string (Value_ notEOF)]) None
                (with_lex ctx (snd (lexer_Next (lex ctx)))) (r_heap rb))
        /\ forall t rest, remaining (lex ctx) = t :: rest ->
             notEOF = t
             /\ remaining (snd (lexer_Next (lex ctx))) = rest
             /\ cursor (snd (lexer_Next (lex ctx))) = S (Cursor ctx)).
Proof.
  intro notEOF. unfold negation_Parse, Peek. fold notEOF. split; intro He; rewrite He.
  - reflexivity.
  - intros rb Hb. rewrite Hb. simpl.
    destruct (negb (is_nil (r_out rb)) && negb (is_some_error (r_err rb))).
    + reflexivity.
    + split.
      * unfold Next.
        assert (Hf : fst (lexer_Next (lex ctx)) = notEOF).
        { unfold notEOF. rewrite lexer_Peek_remaining.
          destruct (remaining (lex ctx)) as [|t rest] eqn:Hr.
          - unfold lexer_Next, remaining in *.
            destruct (next_from (elide (lex ctx))
                        (skipn (rawCursor (lex ctx)) (tokens (lex ctx))) 0)
              as [[t' k]|] eqn:E; [|reflexivity].
            exfalso. clear - Hr E. revert E Hr.
            generalize (skipn (rawCursor (lex ctx)) (tokens (lex ctx))).
            generalize 0%nat.
            intros k0 ts. revert k0.
            induction ts as [|x ts IH]; intros k0; simpl; [discriminate|].
            destruct (elide (lex ctx) (Type_ x)); simpl; [apply IH|discriminate].
          - destruct (lexer_Next_remaining _ _ _ Hr) as [p' [Hn _]].
            rewrite Hn. reflexivity. }
        destruct (lexer_Next (lex ctx)) as [t' p'] eqn:En. simpl in *.
        subst t'. reflexivity.
      * intros t rest Hr.
        destruct (lexer_Next_remaining _ _ _ Hr) as [p' [Hn [Hrem [Hc _]]]].
        rewrite Hn. simpl. repeat split; auto.
        unfold notEOF. rewrite lexer_Peek_remaining, Hr. reflexivity.
Qed.

Lemma set_path_defined (v : Value float) p d x :
  get_path v p = Some x -> exists v', set_path v p d = Some v'.
Proof.
  revert v. induction p as [|i p IH]; intros v; simpl.
  - eauto.
  - destruct v; try discriminate.
    destruct (nth_error fs i) as [f|]; [|discriminate].
    intro H. destruct (IH _ H) as [f' Hf]. rewrite Hf. eauto.
Qed.

Lemma store_defined (h : Heap float) l d x :
  load h l = Done x -> exists h', store h l d = Done h'.
Proof.
  unfold load, store. destruct (nth_error h (fst l)) as [cell|]; [|discriminate].
  destruct (get_path cell (snd l)) as [v|] eqn:E; [|discriminate].
  intros _. destruct (set_path_defined _ _ d _ E) as [v' Hv]. rewrite Hv. eauto.
Qed.

Lemma conform_bool_single (h : Heap float) name v d :
  rv_load h v = Done d ->
  well_kinded d = true ->
  exists fv t',
    conform h (TBasic name Bool) (Some [v]) = Done (Some [fv], None)
    /\ rv_load h fv = Done (VBool t' (bool_of d)).
Proof.
  intros Hl Hw. unfold conform. simpl. rewrite Hl. simpl.
  rewrite andb_false_r. simpl.
  assert (Hv1 : match v with RAddr _ => v | RImm _ => v end = v) by (destruct v; auto).
  rewrite Hv1, Hl. simpl.
  destruct d; simpl in *;
    try (destruct (kindOf t) eqn:Ek; try discriminate; simpl;
         eexists; eexists; split; reflexivity).
  rewrite Hw. simpl.
  destruct (rtype_eqb t (TBasic name Bool)).
  - exists v, t. split; [reflexivity|exact Hl].
  - eexists; eexists; split; reflexivity.
Qed.

Lemma join_Strings_defined (h : Heap float) vs :
  Forall (fun v => exists d, rv_load h v = Done d) vs ->
  exists s, join_Strings h vs = Done s.
Proof.
  induction 1 as [|v vs [d Hd] _ [s Hs]]; simpl.
  - eauto.
  - rewrite Hd. simpl. rewrite Hs. simpl. eauto.
Qed.

(** C10: for a bool field, a single captured value that is itself a bool
    is copied as it is; in every other case (a value that is not a bool,
    or several values, which are first joined into one string) the field
    is set to true, whatever the captured text is and whatever the field
    held before.  No error is returned. *)
Theorem setField_bool (h : Heap float) toks strct field vs l name b0 :
  FieldByIndex h strct (Index field) = Done (RAddr l) ->
  load h l = Done (VBool (TBasic name Bool) b0) ->
  methodsOfPtrTo capturer (TBasic name Bool) = None ->
  methodsOfPtrTo unmarshaler (TBasic name Bool) = None ->
  vs <> [] ->
  Forall (fun v => exists d, rv_load h v = Done d /\ well_kinded d = true) vs ->
  let b := match vs with
           | [v] => match rv_load h v with Done d => bool_of d | Panic _ => true end
           | _ => true
           end in
  exists h',
    store h l (VBool (TBasic name Bool) b) = Done h'
    /\ setField h toks strct field (Some vs) = Done (h', None).
Proof.
  intros Hf Hl Hc Hu Hne Hall b.
  destruct (store_defined h l (VBool (TBasic name Bool) b) _ Hl) as [h' Hs].
  exists h'. split; [exact Hs|].
  unfold setField, setField_body. rewrite Hf. simpl. rewrite Hl. simpl.
  rewrite Hl. simpl. simpl in Hc, Hu. rewrite Hc, Hu.
  destruct vs as [|v [|v2 rest]]; [congruence| |].
  - inversion Hall as [|? ? [d [Hd Hw]] _]; subst.
    simpl. destruct (conform_bool_single h name v d Hd Hw) as [fv [t' [Hcf Hfv]]].
    rewrite Hcf. simpl. rewrite Hfv. simpl.
    unfold assignScalar. simpl. rewrite Hl. simpl.
    unfold b in Hs. rewrite Hd in Hs.
    rewrite String.eqb_refl. simpl. rewrite Hs. reflexivity.
  - assert (Hall' : Forall (fun v => exists d, rv_load h v = Done d) (v :: v2 :: rest)).
    { eapply Forall_impl; [|exact Hall]. intros a [d [Hd _]]. eauto. }
    destruct (join_Strings_defined h _ Hall') as [s Hj].
    change (elems (Some (v :: v2 :: rest))) with (v :: v2 :: rest).
    change (1 <? go_len (Some (v :: v2 :: rest)))%nat with true.
    cbv iota. rewrite Hj. simpl.
    unfold conform. simpl. unfold assignScalar. simpl. rewrite Hl. simpl.
    rewrite (andb_false_r (negb _)). simpl.
    rewrite String.eqb_refl. simpl. unfold b in Hs. rewrite Hs. reflexivity.
Qed.

Lemma Kind_eqb_eq a b : Kind_eqb a b = true -> a = b.
Proof. destruct a, b; simpl; intro H; try reflexivity; discriminate. Qed.

Fixpoint rtype_eqb_eq (a b : rtype) {struct a} : rtype_eqb a b = true -> a = b.
Proof.
  destruct a as [n k|n fs|e|e|n], b as [n' k'|n' fs'|e'|e'|n']; simpl;
    try discriminate; intro H.
  - apply andb_prop in H. destruct H as [Hn Hk].
    apply String.eqb_eq in Hn. apply Kind_eqb_eq in Hk. congruence.
  - apply andb_prop in H. destruct H as [Hn Hf].
    apply String.eqb_eq in Hn. subst n'. f_equal.
    revert fs' Hf. induction fs as [|[x t] r IHr]; intros [|[x' t'] r'] Hf;
      try discriminate; [reflexivity|].
    apply andb_prop in Hf. destruct Hf as [Hxt Hr].
    apply andb_prop in Hxt. destruct Hxt as [Hx Ht].
    apply String.eqb_eq in Hx. apply rtype_eqb_eq in Ht. apply IHr in Hr.
    congruence.
  - apply rtype_eqb_eq in H. congruence.
  - apply rtype_eqb_eq in H. congruence.
  - apply String.eqb_eq in H. congruence.
Qed.

Lemma Convert_typeOf (d d' : Value float) t :
  Convert d t = Done d' -> typeOf d' = t.
Proof.
  destruct d; simpl; intro H; try (inversion H; reflexivity).
  - destruct (underlying_eqb t0 t); inversion H. reflexivity.
  - destruct t0; try discriminate. destruct t; try discriminate.
    destruct (underlying_eqb t0 t); inversion H. reflexivity.
Qed.

Lemma typed_push (h : Heap float) t out v :
  Forall (typed h t) (elems out) -> typed h t v ->
  Forall (typed h t) (elems (push out v)).
Proof.
  intros Ho Hv. simpl. apply Forall_app. split; [exact Ho|]. constructor; auto.
Qed.

(** X28: for a numeric destination type, every value conform hands back has
    that type: the test [fv.Type() != f.Type()] that guards the increment
    in setField's numeric cases never holds after a successful conform. *)
Lemma conform_numeric_typed (h : Heap float) t vs out res :
  isNumericKind (kindOf t) = true ->
  Forall (typed h t) (elems out) ->
  conform_loop h t vs out = Done (Some res, None) ->
  Forall (typed h t) res.
Proof.
  intro Hk. revert out. induction vs as [|v vs IH]; intros out Ho; simpl.
  - intro H. inversion H; subst. exact Ho.
  - destruct (rv_load h v) as [d0|] eqn:E0; simpl; [|discriminate].
    assert (Hp : Kind_eqb (kindOf t) Ptr = false)
      by (destruct (kindOf t); simpl in *; try discriminate; reflexivity).
    assert (Hb : Kind_eqb (kindOf t) Bool = false)
      by (destruct (kindOf t); simpl in *; try discriminate; reflexivity).
    rewrite Hp, andb_false_r. simpl.
    assert (Hv1 : match v with RAddr _ => v | RImm _ => v end = v) by (destruct v; auto).
    rewrite Hv1, E0. simpl.
    destruct (Kind_eqb (kindOf (typeOf d0)) (kindOf t)).
    + destruct (rtype_eqb (typeOf d0) t) eqn:Et.
      * apply IH, typed_push; auto. exists d0. split; auto.
        apply rtype_eqb_eq. exact Et.
      * destruct (Convert d0 t) as [d'|] eqn:Ec; simpl; [|discriminate].
        apply IH, typed_push; auto. exists d'. split; auto.
        eapply Convert_typeOf; eauto.
    + destruct (isIntKind (kindOf t)) eqn:Ei.
      { destruct (sizeOfKind (kindOf t)); simpl; [|discriminate].
        destruct (ParseInt (Value_String d0) 0 a) as [n [e|]]; [discriminate|].
        apply IH, typed_push; auto. eexists; split; reflexivity. }
      destruct (isUintKind (kindOf t)) eqn:Eu.
      { destruct (sizeOfKind (kindOf t)); simpl; [|discriminate].
        destruct (ParseUint (Value_String d0) 0 a) as [n [e|]]; [discriminate|].
        apply IH, typed_push; auto. eexists; split; reflexivity. }
      rewrite Hb.
      destruct (isFloatKind (kindOf t)) eqn:Ef.
      { destruct (sizeOfKind (kindOf t)); simpl; [|discriminate].
        destruct (ParseFloat (Value_String d0) a) as [x [e|]]; [discriminate|].
        apply IH, typed_push; auto. eexists; split; reflexivity. }
      unfold isNumericKind in Hk. rewrite Ei, Eu, Ef in Hk. discriminate.
Qed.

Lemma Accept_Branch (c : parseContext float) : Accept c (Branch c) = c.
Proof. destruct c. unfold Accept, Branch, with_apply. simpl. rewrite app_nil_r. reflexivity. Qed.

Lemma repetition_loop_idle (n : node float) parent h c fuel i out :
  Parse n (Branch c) h parent = Done (mkRet (Some []) None (Branch c) h) ->
  repetition_loop n parent fuel i out c h = Done (Fell (i + fuel) out c h).
Proof.
  intro Hb. revert i. induction fuel as [|fuel IH]; intro i; simpl.
  - rewrite Nat.add_0_r. reflexivity.
  - rewrite Hb. simpl. rewrite Accept_Branch, IH.
    replace (S i + fuel)%nat with (i + S fuel)%nat by lia. reflexivity.
Qed.

(** X29: a repetition over a body that always matches without reading
    anything neither returns nor runs on: it panics at the ceiling,
    whatever MaxIterations is. *)
Lemma repetition_idle_body_panics (n : node float) self ctx h parent :
  Parse n (Branch ctx) h parent = Done (mkRet (Some []) None (Branch ctx) h) ->
  repetition_Parse n self ctx h parent =
  Panic (PanicError (too_many_iterations (Pos (lexer_Peek (lex ctx) 0)) self)).
Proof.
  intro Hb. unfold repetition_Parse. rewrite (repetition_loop_idle _ _ _ _ _ _ _ Hb).
  simpl. rewrite Nat.leb_refl. reflexivity.
Qed.


(** X1: with a token ahead, a reference node matches exactly the tokens of
    its kind, whatever their text; on a match that one token is consumed
    and its value returned, otherwise nil is returned and the context is
    left as it was. *)
Theorem reference_Parse_ahead (r : reference) (ctx : parseContext float)
    h parent t rest :
  remaining (lex ctx) = t :: rest ->
  (Type_ t = ref_typ r ->
   exists ctx',
     reference_Parse r ctx h parent
     = Done (mkRet (Some [ValueOf_string (Value_ t)]) None ctx' h)
     /\ remaining (lex ctx') = rest
     /\ Cursor ctx' = S (Cursor ctx)
     /\ apply ctx' = apply ctx)
  /\ (Type_ t <> ref_typ r ->
      reference_Parse r ctx h parent = Done (mkRet None None ctx h)).
Proof.
  intro Hr.
  assert (Hp : lexer_Peek (lex ctx) 0 = t)
    by (rewrite lexer_Peek_remaining, Hr; reflexivity).
  destruct (lexer_Next_remaining _ _ _ Hr) as [p' [Hn [Hrem [Hc _]]]].
  unfold reference_Parse, Peek. rewrite Hp. split; intro Ht.
  - rewrite Ht, Z.eqb_refl. simpl. unfold Next. rewrite Hn.
    eexists. split; [reflexivity|]. simpl. auto.
  - apply Z.eqb_neq in Ht. rewrite Ht. reflexivity.
Qed.

(** X2: a parseable node never hands back a value together with an error:
    the NextMatch sentinel becomes "no match" (nil, no error), any other
    error is returned with a nil list, and only an error-free user Parse
    yields the one freshly allocated receiver; in every case the cursor is
    where the user's Parse left it. *)
Theorem parseable_Parse_outcomes (p : parseable float) ctx (h : Heap float)
    parent recv' lx uerr :
  p_impl p (lex ctx) (zero (p_t p)) = (recv', lx, uerr) ->
  exists r,
    parseable_Parse p ctx h parent = Done r
    /\ lex (r_ctx r) = lx
    /\ apply (r_ctx r) = apply ctx
    /\ r_heap r = (h ++ [recv'])%list
    /\ match uerr with
       | None => r_out r = Some [RAddr (List.length h, [])] /\ r_err r = None
       | Some NextMatch => r_out r = None /\ r_err r = None
       | Some e => r_out r = None /\ r_err r = Some e
       end.
Proof.
  intro Hu. unfold parseable_Parse, alloc, load, store. simpl.
  rewrite nth_error_app2 by lia. rewrite Nat.sub_diag. simpl. rewrite Hu.
  assert (Hs : list_set (h ++ [zero (p_t p)]) (List.length h) recv'
               = (h ++ [recv'])%list).
  { clear. induction h as [|x h IH]; simpl; [reflexivity|]. rewrite IH. reflexivity. }
  rewrite Hs. simpl.
  destruct uerr as [e|]; [destruct e|]; eexists; (split; [reflexivity|]);
    simpl; auto.
Qed.


(** X4: a NonEmpty group returns without error only with the body's own
    result and only when that result holds at least one value; an empty or
    nil body result is turned into the "cannot be empty" error at the
    peeked token. *)
Theorem group_NonEmpty_result (g : group float) ctx h parent rb :
  g_mode g = groupMatchNonEmpty ->
  Parse (g_expr g) ctx h parent = Done rb ->
  exists r,
    group_Parse g ctx h parent = Done r
    /\ r_out r = r_out rb /\ r_ctx r = r_ctx rb /\ r_heap r = r_heap rb
    /\ (r_err r = None <-> (r_err rb = None /\ exists x l, r_out rb = Some (x :: l)))
    /\ (r_err rb = None -> elems (r_out rb) = [] ->
        r_err r = Some (Errorf (Pos (lexer_Peek (lex (r_ctx rb)) 0))
                          "sub-expression %s cannot be empty" [g_String g])).
Proof.
  intros Hm Hb. unfold group_Parse. rewrite Hm, Hb. simpl.
  destruct rb as [o e c hh]. simpl.
  destruct e as [e|].
  - eexists. split; [reflexivity|]. simpl. repeat split; try discriminate.
    intros [H _]. exact H.
  - destruct o as [[|x l]|]; simpl; eexists; (split; [reflexivity|]); simpl;
      repeat split; try discriminate; eauto;
      try (intros [_ [x' [l' H]]]; discriminate).
Qed.

(** X5: the loop modes at zero matches.  When the body's first attempt
    returns nil without error, ZeroOrOne and ZeroOrMore give the empty
    non-nil list and no error, OneOrMore gives nil with the "must match at
    least once" error at the peeked token. *)
Theorem group_zero_matches (g : group float) ctx h parent rb :
  (0 < MaxIterations)%nat ->
  Parse (g_expr g) (Branch ctx) h parent = Done rb ->
  r_err rb = None ->
  r_out rb = None ->
  let ctx' := Accept ctx (r_ctx rb) in
  match g_mode g with
  | groupMatchZeroOrOne | groupMatchZeroOrMore =>
      group_Parse g ctx h parent = Done (mkRet (Some []) None ctx' (r_heap rb))
  | groupMatchOneOrMore =>
      group_Parse g ctx h parent =
      Done (mkRet None
              (Some (Errorf (Pos (lexer_Peek (lex ctx') 0))
                       "sub-expression %s must match at least once" [g_String g]))
              ctx' (r_heap rb))
  | _ => True
  end.
Proof.
  intros Hmax Hb He Ho ctx'. unfold group_Parse.
  destruct (MaxIterations) as [|m] eqn:Em; [lia|].
  destruct (g_mode g); auto; simpl; rewrite Hb; simpl; rewrite He, Ho; simpl;
    reflexivity.
Qed.

(** X6: for a body that does not fail, a ZeroOrOne group is the optional
    node (given a ceiling of at least 2); with a ceiling of 1 or 0 a
    ZeroOrOne group panics as soon as its body matches. *)
Theorem group_ZeroOrOne_optional (g : group float) ctx h parent rb :
  g_mode g = groupMatchZeroOrOne ->
  Parse (g_expr g) (Branch ctx) h parent = Done rb ->
  r_err rb = None ->
  ((2 <= MaxIterations)%nat ->
   group_Parse g ctx h parent = optional_Parse (g_expr g) ctx h parent)
  /\ ((MaxIterations <= 1)%nat -> r_out rb <> None ->
      group_Parse g ctx h parent =
      Panic (PanicError
               (too_many_iterations
                  (Pos (lexer_Peek (lex (Accept ctx (r_ctx rb))) 0)) (g_String g)))).
Proof.
  intros Hm Hb He. unfold group_Parse, optional_Parse. rewrite Hm. simpl.
  rewrite Hb. simpl. rewrite He. simpl. split.
  - intro Hmax. destruct (r_out rb) as [[|x l]|]; simpl.
    + destruct (MaxIterations <=? 1)%nat eqn:E; [apply Nat.leb_le in E; lia|].
      reflexivity.
    + destruct (MaxIterations <=? 1)%nat eqn:E; [apply Nat.leb_le in E; lia|].
      reflexivity.
    + destruct (MaxIterations <=? 0)%nat eqn:E; [apply Nat.leb_le in E; lia|].
      reflexivity.
  - intros Hmax Ho. destruct (r_out rb) as [l|]; [|congruence]. simpl.
    destruct (MaxIterations <=? 1)%nat eqn:E; [reflexivity|].
    apply Nat.leb_gt in E. lia.
Qed.





Lemma accumulated_Some {A : Type} (vs : list (list A)) (l : list A) :
  l <> [] -> accumulated (Some l) vs = Some (l ++ List.concat vs)%list.
Proof.
  revert l. induction vs as [|v vs IH]; intros l Hl; simpl.
  - rewrite app_nil_r. reflexivity.
  - destruct v as [|x v]; simpl.
    + apply IH. exact Hl.
    + unfold accumulated in *. simpl. rewrite IH.
      * rewrite <- app_assoc. reflexivity.
      * destruct l; simpl; discriminate.
Qed.

Lemma accumulated_None {A : Type} (vs : list (list A)) :
  accumulated None vs = joined vs.
Proof.
  unfold joined. induction vs as [|v vs IH]; simpl; [reflexivity|].
  destruct v as [|x v]; simpl.
  - exact IH.
  - change (accumulated (Some (x :: v)) vs = Some (x :: (v ++ List.concat vs)%list)).
    rewrite accumulated_Some by discriminate. reflexivity.
Qed.

(** X8: a sequence whose items all match returns, without error, the
    concatenation of the items' outputs in order - and therefore Go's nil
    slice ("no match") when every item matched with an empty list. *)
Theorem sequence_all_match parent (s : sequence float) ctx h vs hd nd str c1 h1 rb v :
  seq_prefix parent s ctx h vs (mkSequence hd nd str None) c1 h1 ->
  Parse nd c1 h1 parent = Done rb ->
  r_err rb = None ->
  r_out rb = Some v ->
  sequence_Parse s ctx h parent
  = Done (mkRet (joined (vs ++ [v])) None (r_ctx rb) (r_heap rb)).
Proof.
  intros Hpre Hb He Ho. unfold sequence_Parse.
  rewrite (sequence_loop_prefix _ _ _ _ _ _ _ _ Hpre).
  simpl. rewrite Hb. simpl. rewrite He, Ho. simpl.
  rewrite <- accumulated_None. unfold accumulated. rewrite fold_left_app. reflexivity.
Qed.

(** X9: an item's error ends the sequence at once: the error is returned
    as it is, with the outputs of the items matched before followed by
    whatever the failing item itself returned. *)
Theorem sequence_item_error parent (s : sequence float) ctx h vs hd nd str next
    c1 h1 rb e :
  seq_prefix parent s ctx h vs (mkSequence hd nd str next) c1 h1 ->
  Parse nd c1 h1 parent = Done rb ->
  r_err rb = Some e ->
  sequence_Parse s ctx h parent
  = Done (mkRet (joined (vs ++ [elems (r_out rb)])) (Some e) (r_ctx rb) (r_heap rb)).
Proof.
  intros Hpre Hb He. unfold sequence_Parse.
  rewrite (sequence_loop_prefix _ _ _ _ _ _ _ _ Hpre).
  simpl. rewrite Hb. simpl. rewrite He.
  rewrite <- accumulated_None. unfold accumulated. rewrite fold_left_app. simpl.
  do 2 f_equal. destruct (r_out rb) as [[|x l]|]; reflexivity.
Qed.

Lemma disjunction_loop_run parent c h (pre : list (node float)) fs c1 h1 :
  disj_run parent c h pre fs c1 h1 ->
  forall tail deepest fe fv,
    disjunction_loop (pre ++ tail) parent deepest fe fv c h =
    let '(d', fe', fv') := pick deepest fe fv fs in
    disjunction_loop tail parent d' fe' fv' c1 h1.
Proof.
  induction 1 as [c h|a rest c h rb fs c2 h2 Hp He Ho _ IH
                  |a rest c h rb e c' fs c2 h2 Hp He Hs _ IH];
    intros tail deepest fe fv.
  - reflexivity.
  - simpl. rewrite Hp. simpl. rewrite He, Ho. simpl. apply IH.
  - simpl. rewrite Hp. simpl. rewrite He, Hs.
    destruct (deepest <=? Cursor (r_ctx rb))%nat; apply IH.
Qed.

Lemma disj_run_no_failure parent (c : parseContext float) h nodes c1 h1 :
  disj_run parent c h nodes [] c1 h1 -> c1 = c.
Proof.
  intro H. remember [] as fs eqn:E. induction H; auto; discriminate.
Qed.

Lemma pick_spec {A : Type} (fs : list (nat * error * option (list A))) :
  forall d fe fv,
    (pick d fe fv fs = (d, fe, fv)
     /\ forall x, In x fs -> (fst (fst x) < d)%nat)
    \/ (exists pre cur e v post,
          fs = (pre ++ (cur, e, v) :: post)%list
          /\ pick d fe fv fs = (cur, Some e, v)
          /\ (d <= cur)%nat
          /\ (forall x, In x pre -> (fst (fst x) <= cur)%nat)
          /\ (forall x, In x post -> (fst (fst x) < cur)%nat)).
Proof.
  induction fs as [|[[c0 e0] v0] r IH]; intros d fe fv; simpl.
  - left. split; [reflexivity|]. intros x [].
  - destruct (d <=? c0)%nat eqn:E.
    + apply Nat.leb_le in E. right.
      destruct (IH c0 (Some e0) v0) as [[Hp Hall]|[pre [cur [e [v [post H]]]]]].
      * exists [], c0, e0, v0, r. simpl. repeat split; auto. intros x [].
      * destruct H as [Hfs [Hp [Hle [Hpre Hpost]]]].
        exists ((c0, e0, v0) :: pre), cur, e, v, post. subst r. simpl.
        repeat split; auto; try lia.
        intros x [Hx|Hx]; [subst x; simpl; lia|auto].
    + apply Nat.leb_gt in E.
      destruct (IH d fe fv) as [[Hp Hall]|[pre [cur [e [v [post H]]]]]].
      * left. split; [exact Hp|]. intros x [Hx|Hx]; [subst x; simpl; lia|auto].
      * destruct H as [Hfs [Hp [Hle [Hpre Hpost]]]]. right.
        exists ((c0, e0, v0) :: pre), cur, e, v, post. subst r. simpl.
        repeat split; auto.
        intros x [Hx|Hx]; [subst x; simpl; lia|auto].
Qed.

(** X10: when no alternative of a disjunction matches, the failure it
    reports is the one whose branch got furthest, the last such one on a
    tie: its error and its values are returned and the error is offered
    to the deepest-error record; when no alternative failed either, the
    disjunction returns nil and the context it was given. *)
Theorem disjunction_deepest_failure parent (ctx : parseContext float) h nodes
    fs c2 h2 :
  disj_run parent ctx h nodes fs c2 h2 ->
  match fs with
  | [] => disjunction_Parse nodes ctx h parent = Done (mkRet None None ctx h2)
  | _ =>
      exists pre cur e v post,
        fs = (pre ++ (cur, e, v) :: post)%list
        /\ (forall x, In x pre -> (fst (fst x) <= cur)%nat)
        /\ (forall x, In x post -> (fst (fst x) < cur)%nat)
        /\ disjunction_Parse nodes ctx h parent
           = Done (mkRet v (Some e) (MaybeUpdateError c2 e) h2)
  end.
Proof.
  intro Hrun. unfold disjunction_Parse.
  pose proof (disjunction_loop_run _ _ _ _ _ _ _ Hrun [] 0%nat None None) as Hl.
  rewrite app_nil_r in Hl. rewrite Hl. clear Hl.
  destruct fs as [|f fs'].
  - simpl. apply disj_run_no_failure in Hrun. subst. reflexivity.
  - destruct (pick_spec (f :: fs') 0%nat None None)
      as [[_ Hall]|[pre [cur [e [v [post [Hfs [Hp [_ [Hpre Hpost]]]]]]]]]].
    + specialize (Hall f (or_introl eq_refl)). lia.
    + exists pre, cur, e, v, post. rewrite Hp. simpl. auto.
Qed.


Lemma sizeOfKind_numeric k :
  isNumericKind k = true -> exists bits, sizeOfKind k = Done bits.
Proof. destruct k; simpl; try discriminate; eauto. Qed.

Lemma conform_loop_error_shape (h : Heap float) t vs o e :
  forall out,
    conform_loop h t vs out = Done (o, Some e) ->
    o = None
    /\ isNumericKind (kindOf t) = true
    /\ exists s ne, e = invalid_integer s ne.
Proof.
  induction vs as [|v l IH]; intro out; simpl.
  - discriminate.
  - destruct (rv_load h v) as [d0|]; simpl; [|discriminate].
    match goal with |- context [if ?b then Done (out, None) else _] =>
      destruct b; [discriminate|] end.
    match goal with |- context [rv_load h ?x] =>
      destruct (rv_load h x) as [d|]; simpl; [|discriminate] end.
    destruct (Kind_eqb (kindOf (typeOf d)) (kindOf t)).
    + destruct (rtype_eqb (typeOf d) t); [apply IH|].
      destruct (Convert d t); simpl; [apply IH|discriminate].
    + destruct (isIntKind (kindOf t)) eqn:Ei.
      { destruct (sizeOfKind (kindOf t)); simpl; [|discriminate].
        destruct (ParseInt (Value_String d) 0 a) as [n [ne|]]; [|apply IH].
        intro H. inversion H; subst.
        split; [reflexivity|]. split; [|eauto].
        unfold isNumericKind. rewrite ?Ei, ?Eu, ?Ef. reflexivity. }
      destruct (isUintKind (kindOf t)) eqn:Eu.
      { destruct (sizeOfKind (kindOf t)); simpl; [|discriminate].
        destruct (ParseUint (Value_String d) 0 a) as [n [ne|]]; [|apply IH].
        intro H. inversion H; subst.
        split; [reflexivity|]. split; [|eauto].
        unfold isNumericKind. rewrite ?Ei, ?Eu, ?Ef. reflexivity. }
      destruct (Kind_eqb (kindOf t) Bool) eqn:Eb.
      { apply IH. }
      destruct (isFloatKind (kindOf t)) eqn:Ef.
      { destruct (sizeOfKind (kindOf t)); simpl; [|discriminate].
        destruct (ParseFloat (Value_String d) a) as [x [ne|]]; [|apply IH].
        intro H. inversion H; subst.
        split; [reflexivity|]. split; [|eauto].
        unfold isNumericKind. rewrite ?Ei, ?Eu, ?Ef. reflexivity. }
      apply IH.
Qed.

(** X12: conform is all or nothing, and it fails for numeric destinations
    only: when it returns an error it returns no value at all, the
    destination kind is an integer, unsigned or float kind, and the error
    is the "invalid integer" error - for floats too. *)
Theorem conform_error_shape (h : Heap float) t vs o e :
  conform h t vs = Done (o, Some e) ->
  o = None
  /\ isNumericKind (kindOf t) = true
  /\ exists s ne, e = invalid_integer s ne.
Proof. unfold conform. apply conform_loop_error_shape. Qed.

Lemma conform_loop_length (h : Heap float) t vs out o :
  Kind_eqb (kindOf t) Ptr = false ->
  conform_loop h t vs out = Done (o, None) ->
  List.length (elems o) = (List.length (elems out) + List.length vs)%nat.
Proof.
  intro Hk. revert out. induction vs as [|v l IH]; intro out; simpl.
  - intro H. inversion H; subst. lia.
  - destruct (rv_load h v) as [d0|] eqn:E0; simpl; [|discriminate].
    rewrite Hk, andb_false_r. simpl.
    assert (Hv1 : match v with RAddr _ => v | RImm _ => v end = v) by (destruct v; auto).
    rewrite Hv1, E0. simpl.
    assert (Hpush : forall x,
              conform_loop h t l (push out x) = Done (o, None) ->
              List.length (elems o) = (List.length (elems out) + S (List.length l))%nat).
    { intros x H. apply IH in H. rewrite H. simpl. rewrite length_app. simpl. lia. }
    destruct (Kind_eqb (kindOf (typeOf d0)) (kindOf t)).
    + destruct (rtype_eqb (typeOf d0) t); [apply Hpush|].
      destruct (Convert d0 t); simpl; [apply Hpush|discriminate].
    + destruct (isIntKind (kindOf t)).
      { destruct (sizeOfKind (kindOf t)); simpl; [|discriminate].
        destruct (ParseInt (Value_String d0) 0 a) as [n [ne|]]; [discriminate|].
        apply Hpush. }
      destruct (isUintKind (kindOf t)).
      { destruct (sizeOfKind (kindOf t)); simpl; [|discriminate].
        destruct (ParseUint (Value_String d0) 0 a) as [n [ne|]]; [discriminate|].
        apply Hpush. }
      destruct (Kind_eqb (kindOf t) Bool); [apply Hpush|].
      destruct (isFloatKind (kindOf t)).
      { destruct (sizeOfKind (kindOf t)); simpl; [|discriminate].
        destruct (ParseFloat (Value_String d0) a) as [x [ne|]]; [discriminate|].
        apply Hpush. }
      apply Hpush.
Qed.

(** X13: for a destination that is not a pointer, a successful conform
    gives back exactly one value per value it was given, in order of
    arrival; nothing is dropped. *)
Theorem conform_keeps_count (h : Heap float) t vs o :
  Kind_eqb (kindOf t) Ptr = false ->
  conform h t (Some vs) = Done (o, None) ->
  List.length (elems o) = List.length vs.
Proof.
  intros Hk H. unfold conform in H. apply conform_loop_length in H; auto.
Qed.

Lemma conform_loop_strings_total (h : Heap float) t ss :
  forall out, exists res, conform_loop h t (stringValues ss) out = Done res.
Proof.
  induction ss as [|s ss IH]; intro out.
  - simpl. eauto.
  - cbn [conform_loop stringValues map rv_load ValueOf_string obind typeOf kindOf
         CanAddr tString Value_String].
    fold (@stringValues float ss).
    match goal with |- context [if ?b then Done (out, None) else _] =>
      destruct b; [eauto|] end.
    destruct (Kind_eqb String_ (kindOf t)) eqn:Es.
    + destruct (rtype_eqb tString t); [apply IH|].
      cbn [Convert obind]. apply IH.
    + destruct (isIntKind (kindOf t)) eqn:Ei.
      { destruct (sizeOfKind_numeric (kindOf t)) as [bits Hb];
          [unfold isNumericKind; rewrite Ei; reflexivity|].
        rewrite Hb. cbn [obind].
        destruct (ParseInt s 0 bits) as [n [ne|]]; [eauto|apply IH]. }
      destruct (isUintKind (kindOf t)) eqn:Eu.
      { destruct (sizeOfKind_numeric (kindOf t)) as [bits Hb];
          [unfold isNumericKind; rewrite Ei, Eu; reflexivity|].
        rewrite Hb. cbn [obind].
        destruct (ParseUint s 0 bits) as [n [ne|]]; [eauto|apply IH]. }
      destruct (Kind_eqb (kindOf t) Bool); [apply IH|].
      destruct (isFloatKind (kindOf t)) eqn:Ef.
      { destruct (sizeOfKind_numeric (kindOf t)) as [bits Hb];
          [unfold isNumericKind; rewrite Ei, Eu, Ef; reflexivity|].
        rewrite Hb. cbn [obind].
        destruct (ParseFloat s bits) as [x [ne|]]; [eauto|apply IH]. }
      apply IH.
Qed.

(** X14: conform never panics on the texts of captured tokens, whatever
    the destination type: sizeOfKind is only reached for the kinds it
    knows, and a string is never sent through a Convert that Go refuses. *)
Theorem conform_strings_total (h : Heap float) t ss :
  exists res, conform h t (Some (stringValues ss)) = Done res.
Proof. unfold conform. simpl. apply conform_loop_strings_total. Qed.

Arguments ParseInt : simpl never.
Arguments ParseUint : simpl never.

Lemma append_empty_r (s : string) : s ++ "" = s.
Proof. induction s as [|c s IH]; simpl; [reflexivity|]. rewrite IH. reflexivity. Qed.

Lemma join_Strings_stringValues (h : Heap float) ss :
  join_Strings h (stringValues ss) = Done (joinStrings ss).
Proof.
  induction ss as [|s ss IH]; simpl; [reflexivity|]. rewrite IH. reflexivity.
Qed.

Lemma coalesce_strings (h : Heap float) ss :
  ss <> [] ->
  (if (1 <? go_len (Some (stringValues (float:=float) ss)))%nat
   then s <- join_Strings h (elems (Some (stringValues ss))) ;;
        Done (Some [ValueOf_string (float:=float) s])
   else Done (Some (stringValues ss)))
  = Done (Some [ValueOf_string (joinStrings ss)]).
Proof.
  intro Hne. destruct ss as [|s [|s2 rest]]; [congruence| |].
  - simpl. rewrite append_empty_r. reflexivity.
  - change (1 <? go_len (Some (stringValues (float:=float) (s :: s2 :: rest))))%nat
      with true. cbv iota.
    change (elems (Some (stringValues (float:=float) (s :: s2 :: rest))))
      with (stringValues (float:=float) (s :: s2 :: rest)).
    rewrite join_Strings_stringValues. reflexivity.
Qed.

Lemma conform_int_string (h : Heap float) name k bits s :
  isIntKind k = true ->
  sizeOfKind k = Done bits ->
  conform h (TBasic name k) (Some [ValueOf_string s]) =
  match ParseInt s 0 bits with
  | (n, None) => Done (Some [RImm (VInt (TBasic name k) n)], None)
  | (_, Some ne) => Done (None, Some (invalid_integer s ne))
  end.
Proof.
  intros Hk Hb. unfold conform.
  destruct k; try discriminate; simpl in Hb; inversion Hb; subst bits; simpl;
    rewrite (andb_false_r (negb _)); simpl;
    destruct (ParseInt s 0 _) as [n [ne|]]; reflexivity.
Qed.

(** setField on a plain scalar field (no pointer, no token type, no hook,
    neither slice nor string): what is left is the coalescing of the
    values, conform and the switch on the kind. *)
Lemma setField_body_scalar (h : Heap float) toks strct field fv l fd :
  FieldByIndex h strct (Index field) = Done (RAddr l) ->
  load h l = Done fd ->
  Kind_eqb (kindOf (typeOf fd)) Ptr = false ->
  well_kinded fd = true ->
  rtype_eqb (typeOf fd) tokenType = false ->
  rtype_eqb (typeOf fd) tokensType = false ->
  methodsOfPtrTo capturer (typeOf fd) = None ->
  methodsOfPtrTo unmarshaler (typeOf fd) = None ->
  Kind_eqb (kindOf (typeOf fd)) Slice = false ->
  Kind_eqb (kindOf (typeOf fd)) String_ = false ->
  setField_body h toks strct field fv =
  obind (if (1 <? go_len fv)%nat
         then s <- join_Strings h (elems fv) ;; Done (Some [ValueOf_string s])
         else Done fv)
    (fun fieldValue =>
       obind (conform h (typeOf fd) fieldValue)
         (fun x =>
            match snd x with
            | Some _ => Done (h, snd x)
            | None =>
                match elems (fst x) with
                | [] => Panic "runtime error: index out of range [0] with length 0"
                | fv0 :: _ => fv1 <- rv_load h fv0 ;; assignScalar h field (RAddr l) fd fv1
                end
            end)).
Proof.
  intros Hf Hl Hp Hw Htok Htoks Hc Hu Hsl Hst.
  unfold setField_body. rewrite Hf. cbn [obind rv_load]. rewrite Hl. cbn [obind].
  destruct fd; try (simpl in Hw, Hp; congruence);
    cbn [obind rv_load typeOf] in *; rewrite Hl; cbn [obind typeOf];
    rewrite Htok, Htoks, Hc, Hu;
    (destruct t; try (simpl in Hsl; discriminate);
     rewrite Hst;
     (destruct (1 <? go_len fv)%nat;
      [destruct (join_Strings h (elems fv)); cbn [obind]; [|reflexivity]|cbn [obind]];
      match goal with |- context [conform h ?t ?v] =>
        destruct (conform h t v) as [[fvs [e|]]|]; reflexivity end)).
Qed.

(** X15: an integer field takes the integer that strconv.ParseInt (base 0,
    the field's width) reads from the captured texts joined together, so
    ["-"; "10"] gives -10; when the joined text is no such integer the
    field and the heap are left as they were and the "invalid integer"
    error is returned, wrapped with the nearest token position and the
    qualified field name.  The field is never incremented. *)
Theorem setField_int_strings (h : Heap float) toks strct field ss l name k n0 bits sd :
  FieldByIndex h strct (Index field) = Done (RAddr l) ->
  load h l = Done (VInt (TBasic name k) n0) ->
  isIntKind k = true ->
  sizeOfKind k = Done bits ->
  methodsOfPtrTo capturer (TBasic name k) = None ->
  methodsOfPtrTo unmarshaler (TBasic name k) = None ->
  ss <> [] ->
  rv_load h strct = Done sd ->
  match ParseInt (joinStrings ss) 0 bits with
  | (n, None) =>
      exists h',
        store h l (VInt (TBasic name k) n) = Done h'
        /\ setField h toks strct field (Some (stringValues ss)) = Done (h', None)
  | (_, Some ne) =>
      setField h toks strct field (Some (stringValues ss))
      = Done (h, Some (Wrapf (nearestPos toks)
                         (typeName (typeOf sd) ++ "." ++ Name field)
                         (invalid_integer (joinStrings ss) ne)))
  end.
Proof.
  intros Hf Hl Hk Hb Hc Hu Hne Hsd.
  assert (Hkk : Kind_eqb k k = true) by (destruct k; reflexivity).
  pose proof (conform_int_string h name k bits (joinStrings ss) Hk Hb) as Hci.
  unfold setField.
  rewrite (setField_body_scalar h toks strct field _ l _ Hf Hl);
    try exact Hc; try exact Hu;
    try (destruct k; try discriminate; reflexivity).
  rewrite (coalesce_strings h ss Hne). cbn [obind typeOf]. rewrite Hci.
  destruct (ParseInt (joinStrings ss) 0 bits) as [n [ne|]] eqn:Ep.
  - cbn [obind fst snd]. rewrite Hsd. reflexivity.
  - cbn [obind fst snd elems rv_load]. unfold assignScalar. cbn [typeOf kindOf].
    rewrite Hk. cbn [rtype_eqb]. rewrite String.eqb_refl, Hkk. cbn [andb negb].
    unfold Set_. rewrite Hl. cbn [obind typeOf rtype_eqb].
    rewrite String.eqb_refl, Hkk. cbn [andb].
    destruct (store_defined h l (VInt (TBasic name k) n) _ Hl) as [h' Hs].
    exists h'. split; [exact Hs|]. rewrite Hs. reflexivity.
Qed.

Lemma setField_scalar (h : Heap float) toks strct field fv l fd :
  scalar_field h strct field l fd ->
  setField h toks strct field fv =
  obind
    (obind (if (1 <? go_len fv)%nat
            then s <- join_Strings h (elems fv) ;; Done (Some [ValueOf_string s])
            else Done fv)
       (fun fieldValue =>
          obind (conform h (typeOf fd) fieldValue)
            (fun x =>
               match snd x with
               | Some _ => Done (h, snd x)
               | None =>
                   match elems (fst x) with
                   | [] => Panic "runtime error: index out of range [0] with length 0"
                   | fv0 :: _ =>
                       fv1 <- rv_load h fv0 ;; assignScalar h field (RAddr l) fd fv1
                   end
               end)))
    (fun r =>
       match snd r with
       | None => Done (fst r, None)
       | Some _ =>
           sd <- rv_load (fst r) strct ;;
           Done (fst r, decorate (snd r) (nearestPos toks)
                          (typeName (typeOf sd) ++ "." ++ Name field))
       end).
Proof.
  intros [Hf [Hl [Hp [Hw [Htok [Htoks [Hc [Hu [Hsl Hst]]]]]]]]].
  unfold setField.
  rewrite (setField_body_scalar h toks strct field fv l fd) by assumption.
  match goal with |- obind ?m _ = _ => destruct m as [[h' [e|]]|] end; reflexivity.
Qed.

(** X16: a capture that fires with no value at all - as the capture of an
    optional or of a repetition that matched nothing does - makes setField
    panic on a scalar field with an index out of range, whatever the kind
    of the field. *)
Theorem setField_no_value_panics (h : Heap float) toks strct field fv l fd :
  scalar_field h strct field l fd ->
  elems fv = [] ->
  setField h toks strct field fv
  = Panic (PanicString "runtime error: index out of range [0] with length 0").
Proof.
  intros Hsf He. rewrite (setField_scalar h toks strct field fv l fd Hsf).
  assert (Hlen : (1 <? go_len fv)%nat = false)
    by (destruct fv as [[|x r]|]; simpl in *; try discriminate; reflexivity).
  rewrite Hlen. cbn [obind]. unfold conform. rewrite He. reflexivity.
Qed.

Fixpoint rtype_eqb_refl (t : rtype) : rtype_eqb t t = true.
Proof.
  destruct t as [n k|n fs|e|e|n]; simpl.
  - rewrite String.eqb_refl. destruct k; reflexivity.
  - rewrite String.eqb_refl. simpl.
    induction fs as [|[x t] r IHr]; [reflexivity|].
    rewrite String.eqb_refl, rtype_eqb_refl. simpl. exact IHr.
  - apply rtype_eqb_refl.
  - apply rtype_eqb_refl.
  - apply String.eqb_refl.
Qed.

Lemma conform_single_passthrough (h : Heap float) t v d :
  rv_load h v = Done d ->
  Kind_eqb (kindOf t) Ptr = false ->
  (typeOf d = t
   \/ (Kind_eqb (kindOf (typeOf d)) (kindOf t) = false
       /\ isNumericKind (kindOf t) = false
       /\ Kind_eqb (kindOf t) Bool = false)) ->
  conform h t (Some [v]) = Done (Some [v], None).
Proof.
  intros Hl Hp Hcase. unfold conform. cbn [elems conform_loop]. rewrite Hl.
  cbn [obind]. rewrite Hp, andb_false_r. cbn [andb].
  assert (Hv1 : match v with RAddr _ => v | RImm _ => v end = v) by (destruct v; auto).
  rewrite Hv1, Hl. cbn [obind].
  destruct Hcase as [Ht|[Hk [Hn Hb]]].
  - subst t. assert (Hkk : forall k, Kind_eqb k k = true) by (destruct k; reflexivity).
    rewrite Hkk, rtype_eqb_refl. reflexivity.
  - rewrite Hk. unfold isNumericKind in Hn.
    destruct (isIntKind (kindOf t)); [discriminate|].
    destruct (isUintKind (kindOf t)); [discriminate|].
    destruct (isFloatKind (kindOf t)); [discriminate|].
    rewrite Hb. reflexivity.
Qed.

(** X17: a struct field takes a single captured value of its own type by
    copy; a single value of another kind (the text of a token, say) is
    refused with the "not correct type" error, wrapped with the position
    and the qualified field name, and the heap stays as it was. *)
Theorem setField_struct (h : Heap float) toks strct field v d l t fs sd :
  scalar_field h strct field l (VStruct t fs) ->
  rv_load h v = Done d ->
  rv_load h strct = Done sd ->
  (typeOf d = t ->
   exists h', store h l d = Done h'
              /\ setField h toks strct field (Some [v]) = Done (h', None))
  /\ (Kind_eqb (kindOf (typeOf d)) Struct = false ->
      setField h toks strct field (Some [v])
      = Done (h, Some (Wrapf (nearestPos toks)
                         (typeName (typeOf sd) ++ "." ++ Name field)
                         (not_correct_type d t)))).
Proof.
  intros Hsf Hv Hsd. pose proof Hsf as [_ [Hl [Hp [Hw _]]]].
  simpl in Hw, Hp. apply Kind_eqb_eq in Hw.
  rewrite (setField_scalar h toks strct field _ l _ Hsf).
  change (1 <? go_len (Some [v]))%nat with false. cbn [obind typeOf].
  split.
  - intro Ht.
    rewrite (conform_single_passthrough h t v d Hv Hp (or_introl Ht)).
    cbn [obind fst snd elems]. rewrite Hv. cbn [obind].
    unfold assignScalar. cbn [typeOf]. rewrite Hw. cbn [isIntKind isUintKind
      isFloatKind Kind_eqb orb].
    destruct (store_defined h l d _ Hl) as [h' Hs]. exists h'. split; [exact Hs|].
    assert (Hset : Set_ h (RAddr l) d = Done h').
    { unfold Set_. rewrite Hl. cbn [obind typeOf]. rewrite Ht, rtype_eqb_refl.
      exact Hs. }
    destruct d; rewrite Ht, rtype_eqb_refl; cbn [negb]; rewrite Hset; reflexivity.
  - intro Hk.
    assert (Hne : rtype_eqb (typeOf d) t = false).
    { destruct (rtype_eqb (typeOf d) t) eqn:E; [|reflexivity].
      apply rtype_eqb_eq in E. rewrite E, Hw in Hk. discriminate. }
    rewrite (conform_single_passthrough h t v d Hv Hp).
    + cbn [obind fst snd elems]. rewrite Hv. cbn [obind].
      unfold assignScalar. cbn [typeOf]. rewrite Hw. cbn [isIntKind isUintKind
        isFloatKind Kind_eqb orb].
      destruct d; rewrite Hne; cbn [negb obind snd fst]; rewrite Hsd; reflexivity.
    + right. rewrite Hw. repeat split; auto.
Qed.

(** X18: a field of a kind setField has no case for (a map, say) is
    refused with the "unsupported field type" error, wrapped with the
    position and the qualified field name; the heap stays as it was. *)
Theorem setField_unsupported_kind (h : Heap float) toks strct field ss l n sd :
  scalar_field h strct field l (VMap (TMap n)) ->
  ss <> [] ->
  rv_load h strct = Done sd ->
  setField h toks strct field (Some (stringValues ss))
  = Done (h, Some (Wrapf (nearestPos toks)
                     (typeName (typeOf sd) ++ "." ++ Name field)
                     (unsupported_field_type (TMap n) (Name field)))).
Proof.
  intros Hsf Hne Hsd.
  rewrite (setField_scalar h toks strct field _ l _ Hsf).
  rewrite (coalesce_strings h ss Hne). cbn [obind typeOf].
  rewrite (conform_single_passthrough h (TMap n) _ (VString tString (joinStrings ss)));
    [|reflexivity|reflexivity|right; repeat split; reflexivity].
  cbn [obind fst snd elems rv_load ValueOf_string]. unfold assignScalar.
  cbn. rewrite Hsd. reflexivity.
Qed.

Lemma nth_error_list_set_same {A : Type} (l : list A) i x y :
  nth_error l i = Some x -> nth_error (list_set l i y) i = Some y.
Proof.
  revert i. induction l as [|a l IH]; intros [|i]; simpl; try discriminate; auto.
Qed.

Lemma get_set_path (v : Value float) p new v' :
  set_path v p new = Some v' -> get_path v' p = Some new.
Proof.
  revert v v'. induction p as [|i p IH]; intros v v'; simpl.
  - intro H. inversion H. reflexivity.
  - destruct v; try discriminate.
    destruct (nth_error fs i) as [f|] eqn:En; [|discriminate].
    destruct (set_path f p new) as [f'|] eqn:Es; [|discriminate].
    intro H. inversion H; subst. simpl.
    rewrite (nth_error_list_set_same _ _ _ _ En). eapply IH; eauto.
Qed.

Lemma load_store_same (h : Heap float) l d h' :
  store h l d = Done h' -> load h' l = Done d.
Proof.
  unfold store, load. destruct (nth_error h (fst l)) as [cell|] eqn:En; [|discriminate].
  destruct (set_path cell (snd l) d) as [cell'|] eqn:Es; [|discriminate].
  intro H. inversion H; subst.
  rewrite (nth_error_list_set_same _ _ _ _ En).
  rewrite (get_set_path _ _ _ _ Es). reflexivity.
Qed.

Lemma conform_loop_string_dest (h : Heap float) name ss :
  forall out, exists o,
    conform_loop h (TBasic name String_) (stringValues ss) out = Done (o, None)
    /\ elems o = (elems out
                  ++ map (fun s => RImm (VString (TBasic name String_) s)) ss)%list
    /\ (ss = [] -> o = out).
Proof.
  induction ss as [|s ss IH]; intro out.
  - exists out. simpl. rewrite app_nil_r. auto.
  - cbn [conform_loop stringValues map rv_load ValueOf_string obind typeOf kindOf
         CanAddr tString Value_String].
    fold (@stringValues float ss).
    change (Kind_eqb String_ Ptr) with false. rewrite andb_false_r. cbn [andb].
    change (Kind_eqb String_ String_) with true. cbv iota.
    destruct (rtype_eqb tString (TBasic name String_)) eqn:Et.
    + apply rtype_eqb_eq in Et.
      destruct (IH (push out (RImm (VString tString s)))) as [o [Hc [He _]]].
      exists o. split; [exact Hc|]. split; [|discriminate].
      rewrite He. simpl. rewrite <- app_assoc. simpl. rewrite <- Et. reflexivity.
    + cbn [Convert obind].
      destruct (IH (push out (RImm (VString (TBasic name String_) s))))
        as [o [Hc [He _]]].
      exists o. split; [exact Hc|]. split; [|discriminate].
      rewrite He. simpl. rewrite <- app_assoc. reflexivity.
Qed.

Lemma concat_each_strings l t ss :
  forall (h0 : Heap float) s0,
    load h0 l = Done (VString t s0) ->
    exists h',
      concat_each h0 (RAddr l) (map (fun s => RImm (VString t s)) ss) = Done h'
      /\ load h' l = Done (VString t (s0 ++ joinStrings ss)).
Proof.
  induction ss as [|s ss IH]; intros h0 s0 Hl.
  - exists h0. simpl. rewrite append_empty_r. auto.
  - cbn [concat_each map rv_load obind]. rewrite Hl.
    cbn [obind Value_String typeOf]. unfold Set_. rewrite Hl.
    cbn [obind typeOf]. rewrite rtype_eqb_refl.
    destruct (store_defined h0 l (VString t (s0 ++ s)) _ Hl) as [h1 Hs].
    rewrite Hs. cbn [obind]. pose proof (load_store_same _ _ _ _ Hs) as Hl1.
    destruct (IH h1 (s0 ++ s) Hl1) as [h' [Hc Hl']].
    exists h'. split; [exact Hc|]. rewrite Hl'.
    assert (Ha : forall a b c : string, (a ++ b) ++ c = a ++ (b ++ c))
      by (intros a b c; induction a as [|x a IHa]; simpl; [|rewrite IHa]; reflexivity).
    rewrite Ha. reflexivity.
Qed.

(** X19: a string field accumulates: the captured texts are appended, in
    order, to what the field already holds; no text makes the call fail,
    and a capture without values leaves the field as it is. *)
Theorem setField_string_concat (h : Heap float) toks strct field ss l name s0 :
  FieldByIndex h strct (Index field) = Done (RAddr l) ->
  load h l = Done (VString (TBasic name String_) s0) ->
  methodsOfPtrTo capturer (TBasic name String_) = None ->
  methodsOfPtrTo unmarshaler (TBasic name String_) = None ->
  exists h',
    setField h toks strct field (Some (stringValues ss)) = Done (h', None)
    /\ load h' l = Done (VString (TBasic name String_) (s0 ++ joinStrings ss)).
Proof.
  intros Hf Hl Hc Hu.
  destruct (conform_loop_string_dest h name ss None) as [o [Hcf [Ho _]]].
  destruct (concat_each_strings l (TBasic name String_) ss h s0 Hl) as [h' [Hce Hl']].
  exists h'. split; [|exact Hl'].
  unfold setField, setField_body. rewrite Hf. cbn [obind rv_load]. rewrite Hl.
  cbn [obind rv_load]. rewrite Hl. cbn [obind typeOf].
  change (rtype_eqb (TBasic name String_) tokenType) with false.
  change (rtype_eqb (TBasic name String_) tokensType) with false.
  cbv iota. rewrite Hc, Hu.
  change (Kind_eqb (kindOf (TBasic name String_)) String_) with true. cbv iota.
  unfold conform. cbn [elems]. rewrite Hcf. cbn [obind]. rewrite Ho. cbn [app elems].
  rewrite Hce. reflexivity.
Qed.

Lemma conform_loop_same_type (h : Heap float) ss :
  forall out,
    conform_loop h tString (stringValues ss) out
    = Done (match ss with
            | [] => out
            | _ => Some (elems out ++ stringValues ss)%list
            end, None).
Proof.
  induction ss as [|s ss IH]; intro out; [reflexivity|].
  cbn [conform_loop stringValues map rv_load ValueOf_string obind typeOf kindOf
       CanAddr tString Value_String].
  fold (@stringValues float ss). fold tString. rewrite rtype_eqb_refl.
  cbn [negb andb]. change (Kind_eqb String_ String_) with true. cbv iota.
  rewrite IH. destruct ss; [reflexivity|].
  unfold push. simpl. rewrite <- app_assoc. reflexivity.
Qed.

Lemma load_elems_strings (h : Heap float) ss :
  load_elems h tString (stringValues ss) = Done (map (VString tString) ss).
Proof.
  induction ss as [|s ss IH]; [reflexivity|].
  simpl. simpl in IH. rewrite IH. reflexivity.
Qed.

(** X20: a field that is a slice of strings grows by the captured texts,
    in order, after the elements it already has; a capture without values
    stores the slice back unchanged (a nil slice stays nil). *)
Theorem setField_slice_append (h : Heap float) toks strct field ss l xs :
  FieldByIndex h strct (Index field) = Done (RAddr l) ->
  load h l = Done (VSlice (TSlice tString) xs) ->
  methodsOfPtrTo capturer (TSlice tString) = None ->
  methodsOfPtrTo unmarshaler (TSlice tString) = None ->
  methodsOfPtrTo capturer tString = None ->
  let xs' := match ss with
             | [] => xs
             | _ => Some (elems xs ++ map (VString tString) ss)%list
             end in
  exists h',
    store h l (VSlice (TSlice tString) xs') = Done h'
    /\ setField h toks strct field (Some (stringValues ss)) = Done (h', None).
Proof.
  intros Hf Hl Hc Hu Hce xs'.
  destruct (store_defined h l (VSlice (TSlice tString) xs') _ Hl) as [h' Hs].
  exists h'. split; [exact Hs|].
  unfold setField, setField_body. rewrite Hf. cbn [obind rv_load]. rewrite Hl.
  cbn [obind rv_load]. rewrite Hl. cbn [obind typeOf].
  change (rtype_eqb (TSlice tString) tokenType) with false.
  change (rtype_eqb (TSlice tString) tokensType) with false.
  cbv iota. rewrite Hc, Hu. cbn [sliceBase tString]. fold tString. rewrite Hce.
  unfold conform. cbn [elems]. rewrite conform_loop_same_type. cbn [obind].
  destruct ss as [|s ss].
  - cbn [elems load_elems obind]. unfold Set_. rewrite Hl. cbn [obind typeOf].
    rewrite rtype_eqb_refl. unfold xs' in Hs. rewrite Hs. reflexivity.
  - cbn [elems app]. rewrite load_elems_strings. cbn [obind map].
    unfold Set_. rewrite Hl. cbn [obind typeOf]. rewrite rtype_eqb_refl.
    unfold xs' in Hs. cbn [map] in Hs. rewrite Hs. reflexivity.
Qed.

(** X21: a field of type lexer.Token receives the first token of the
    capture's range and a field of type []lexer.Token the whole range,
    whatever values were captured and before any Capture or
    TextUnmarshaler method is looked for; with an empty range the
    lexer.Token case panics on [tokens[0]]. *)
Theorem setField_token_fields (h : Heap float) toks strct field fv l fd :
  FieldByIndex h strct (Index field) = Done (RAddr l) ->
  load h l = Done fd ->
  ((exists fs, fd = VStruct tokenType fs) ->
   match toks with
   | [] => setField h toks strct field fv
           = Panic (PanicString "runtime error: index out of range [0] with length 0")
   | t0 :: _ =>
       exists h', store h l (Token_value t0) = Done h'
                  /\ setField h toks strct field fv = Done (h', None)
   end)
  /\ ((exists xs, fd = VSlice tokensType xs) ->
      exists h', store h l (Tokens_value toks) = Done h'
                 /\ setField h toks strct field fv = Done (h', None)).
Proof.
  intros Hf Hl. split; intros [x Hfd]; subst fd.
  - unfold setField, setField_body. rewrite Hf. cbn [obind rv_load]. rewrite Hl.
    cbn [obind rv_load]. rewrite Hl. cbn [obind typeOf]. rewrite rtype_eqb_refl.
    destruct toks as [|t0 rest]; [reflexivity|].
    destruct (store_defined h l (Token_value t0) _ Hl) as [h' Hs].
    exists h'. split; [exact Hs|].
    unfold Set_. rewrite Hl. cbn [obind].
    change (typeOf (Token_value (float:=float) t0)) with tokenType.
    cbn [typeOf]. rewrite rtype_eqb_refl, Hs. reflexivity.
  - destruct (store_defined h l (Tokens_value toks) _ Hl) as [h' Hs].
    exists h'. split; [exact Hs|].
    unfold setField, setField_body. rewrite Hf. cbn [obind rv_load]. rewrite Hl.
    cbn [obind rv_load]. rewrite Hl. cbn [obind typeOf].
    change (rtype_eqb tokensType tokenType) with false. cbv iota.
    rewrite rtype_eqb_refl.
    unfold Set_. rewrite Hl. cbn [obind].
    change (typeOf (Tokens_value (float:=float) toks)) with tokensType.
    cbn [typeOf]. rewrite rtype_eqb_refl, Hs. reflexivity.
Qed.


(** X23: a capture node returns either nil or exactly the parent it was
    given, and it returns nil only when its child returned nil without an
    error; in that case nothing has been added to the deferred log. *)
Theorem capture_result_shape (c : capture float) ctx h parent rb r :
  Parse (c_node c) ctx h parent = Done rb ->
  capture_Parse c ctx h parent = Done r ->
  (r_out r = None \/ r_out r = Some [parent])
  /\ (r_out r = None <-> (r_out rb = None /\ r_err rb = None))
  /\ r_err r = r_err rb
  /\ r_heap r = r_heap rb
  /\ (r_out rb = None -> r_ctx r = r_ctx rb).
Proof.
  intros Hb. unfold capture_Parse. rewrite Hb. simpl.
  destruct (r_out rb) as [v|], (r_err rb) as [e|]; simpl; intro H;
    inversion H; subst; simpl; repeat split; auto;
    try discriminate; try (intros [H1 H2]; discriminate).
Qed.

(** X24: a struct node returns either nil or exactly one value, the
    struct it has just allocated at the end of the heap; the parent
    argument never appears in its output. *)
Theorem strct_result_shape (s : strct float) ctx h parent r :
  strct_Parse s ctx h parent = Done r ->
  r_out r = None \/ r_out r = Some [RAddr (List.length h, [])].
Proof.
  unfold strct_Parse, alloc, Peek. simpl.
  destruct (maybeInjectStartToken s (h ++ [zero (typ s)])%list (lexer_Peek (lex ctx) 0)
              (RAddr (List.length h, []))) as [h1|]; simpl; [|discriminate].
  destruct (Parse (expr s) ctx h1 (RAddr (List.length h, []))) as [rb|]; simpl;
    [|discriminate].
  destruct (r_err rb).
  - destruct (Apply (r_ctx rb) (r_heap rb)) as [[[ae c2] h2]|]; simpl;
      [|discriminate].
    intro H. inversion H. auto.
  - destruct (is_nil (r_out rb)).
    + intro H. inversion H. auto.
    + unfold RawPeek. simpl.
      destruct (maybeInjectEndToken s (r_heap rb) _ _) as [h2|]; simpl; [|discriminate].
      destruct (maybeInjectTokens s h2 _ _) as [h3|]; simpl; [|discriminate].
      destruct (Apply (r_ctx rb) h3) as [[[ae c2] h4]|]; simpl; [|discriminate].
      intro H. inversion H. auto.
Qed.

Lemma nth_error_list_set_other {A : Type} (l : list A) i j y :
  i <> j -> nth_error (list_set l i y) j = nth_error l j.
Proof.
  revert i j. induction l as [|a l IH]; intros [|i] [|j] Hne; simpl; auto;
    try congruence.
Qed.

Lemma load_store_other (h : Heap float) l d h' a p :
  store h l d = Done h' -> fst l <> a -> load h' (a, p) = load h (a, p).
Proof.
  unfold store, load. destruct (nth_error h (fst l)) as [cell|]; [|discriminate].
  destruct (set_path cell (snd l) d) as [cell'|]; [|discriminate].
  intros H Hne. inversion H; subst. simpl.
  rewrite nth_error_list_set_other by exact Hne. reflexivity.
Qed.

Lemma load_lt (h : Heap float) l v : load h l = Done v -> (fst l < List.length h)%nat.
Proof.
  unfold load. destruct (nth_error h (fst l)) eqn:E; [|discriminate].
  intros _. apply nth_error_Some. congruence.
Qed.

Lemma load_app_old (h x : Heap float) l v :
  load h l = Done v -> load (h ++ x)%list l = Done v.
Proof.
  intro H. pose proof (load_lt _ _ _ H) as Hlt. unfold load in *.
  rewrite nth_error_app1 by exact Hlt. exact H.
Qed.

Lemma load_fresh (h : Heap float) z : load (h ++ [z])%list (List.length h, []) = Done z.
Proof.
  unfold load. simpl. rewrite nth_error_app2 by lia. rewrite Nat.sub_diag. reflexivity.
Qed.

Lemma zero_not_pointer e t tgt :
  (forall e', e <> TPtr e') -> zero e <> VPtr (float:=float) t tgt.
Proof.
  intros He. destruct e as [n k|n fs|e0|e0|n]; simpl; try discriminate.
  - destruct k; discriminate.
  - exfalso. apply (He e0). reflexivity.
Qed.

(** X25: a non-nil pointer field is written through: setField does to the
    cell the pointer leads to exactly what it would do to a field stored
    there directly, and the pointer itself is not rewritten. *)
Theorem setField_through_pointer (h : Heap float) toks strct field fv l t l2 fd2 :
  FieldByIndex h strct (Index field) = Done (RAddr l) ->
  load h l = Done (VPtr t (Some l2)) ->
  load h l2 = Done fd2 ->
  (forall t' tgt, fd2 <> VPtr t' tgt) ->
  setField_body h toks strct field fv
  = setField_body h toks (RAddr l2) (mkField (Name field) []) fv.
Proof.
  intros Hf Hl Hl2 Hnp. unfold setField_body. rewrite Hf.
  cbn [obind rv_load FieldByIndex FieldByIndex_from Index Name].
  rewrite Hl, Hl2. cbn [obind].
  assert (Hpre : forall (K : Heap float * RValue float -> outcome (Heap float * option error)),
             obind (match fd2 with
                    | VPtr (TPtr e) None =>
                        let '(h1, l0) := alloc h e in
                        obind (Set_ h1 (RAddr l2) (VPtr (TPtr e) (Some l0)))
                              (fun h2 => Done (h2, RAddr (float:=float) l0))
                    | VPtr _ (Some l0) => Done (h, RAddr l0)
                    | VPtr _ None => Panic "reflect: Elem of invalid pointer type"
                    | _ => Done (h, RAddr l2)
                    end) K = K (h, RAddr l2)).
  { intro K. destruct fd2; try reflexivity. exfalso. eapply Hnp. reflexivity. }
  rewrite Hpre. destruct t; reflexivity.
Qed.

(** X26: a nil pointer field is hydrated before anything else: a zero
    value of the element type is allocated at the end of the heap, the
    field is pointed at it, and the call goes on as a call on that fresh
    cell. *)
Theorem setField_hydrates_nil_pointer (h : Heap float) toks strct field fv l e :
  FieldByIndex h strct (Index field) = Done (RAddr l) ->
  load h l = Done (VPtr (TPtr e) None) ->
  (forall e', e <> TPtr e') ->
  let fresh : loc := (List.length h, []) in
  exists h2,
    store (h ++ [zero e])%list l (VPtr (TPtr e) (Some fresh)) = Done h2
    /\ load h2 l = Done (VPtr (TPtr e) (Some fresh))
    /\ load h2 fresh = Done (zero e)
    /\ setField_body h toks strct field fv
       = setField_body h2 toks (RAddr fresh) (mkField (Name field) []) fv.
Proof.
  intros Hf Hl He fresh.
  pose proof (load_app_old h [zero e] l _ Hl) as Hl1.
  destruct (store_defined _ l (VPtr (TPtr e) (Some fresh)) _ Hl1) as [h2 Hs].
  pose proof (load_store_same _ _ _ _ Hs) as Hl2.
  assert (Hfresh : load h2 fresh = Done (zero e)).
  { unfold fresh. rewrite (load_store_other _ _ _ _ _ _ Hs).
    - apply load_fresh.
    - pose proof (load_lt _ _ _ Hl). lia. }
  exists h2. split; [exact Hs|]. split; [exact Hl2|]. split; [exact Hfresh|].
  assert (HSet : Set_ (h ++ [zero e])%list (RAddr l) (VPtr (TPtr e) (Some fresh))
                 = Done h2).
  { unfold Set_. rewrite Hl1. cbn [obind typeOf]. rewrite rtype_eqb_refl. exact Hs. }
  unfold setField_body. rewrite Hf.
  cbn [obind rv_load FieldByIndex FieldByIndex_from Index Name].
  rewrite Hl. cbn [obind]. unfold alloc at 1. cbv beta iota zeta.
  unfold fresh in *. rewrite HSet. cbn [obind rv_load]. rewrite Hfresh. cbn [obind].
  destruct (zero e) eqn:Ez;
    try (cbn [obind rv_load]; rewrite Hfresh; cbn [obind]; reflexivity).
  exfalso. eapply (zero_not_pointer e); eauto.
Qed.






Lemma strings_of_stringValues (h : Heap float) ss :
  strings_of h (stringValues ss) = Done ss.
Proof.
  induction ss as [|s ss IH]; [reflexivity|].
  cbn [strings_of stringValues map rv_load ValueOf_string obind as_string].
  fold (@stringValues float ss). rewrite rtype_eqb_refl, IH. reflexivity.
Qed.

(** X30: a field whose type has a Capture method is left to that method:
    it is called once, with all the captured texts in order, on the
    field's storage, in place of any conversion by kind; what it leaves
    in the receiver is stored and its error is setField's error. *)
Theorem setField_capture_hook (h : Heap float) toks strct field ss l fd cap :
  FieldByIndex h strct (Index field) = Done (RAddr l) ->
  load h l = Done fd ->
  (forall t tgt, fd <> VPtr t tgt) ->
  rtype_eqb (typeOf fd) tokenType = false ->
  rtype_eqb (typeOf fd) tokensType = false ->
  methodsOfPtrTo capturer (typeOf fd) = Some cap ->
  exists h',
    store h l (fst (cap ss fd)) = Done h'
    /\ setField_body h toks strct field (Some (stringValues ss))
       = Done (h', snd (cap ss fd)).
Proof.
  intros Hf Hl Hnp Htok Htoks Hcap.
  destruct (store_defined h l (fst (cap ss fd)) _ Hl) as [h' Hs].
  exists h'. split; [exact Hs|].
  unfold setField_body. rewrite Hf. cbn [obind rv_load]. rewrite Hl. cbn [obind].
  destruct fd; try (exfalso; eapply Hnp; reflexivity);
    cbn [obind rv_load typeOf] in *; rewrite Hl; cbn [obind typeOf];
    rewrite Htok, Htoks, Hcap; cbn [elems]; rewrite strings_of_stringValues;
    cbn [obind];
    match goal with |- context [cap ss ?v] =>
      destruct (cap ss v) as [recv' e] eqn:Ec end;
    cbn [fst snd] in Hs; rewrite Hs; reflexivity.
Qed.

End Facts.

(** * The properties at concrete inputs *)

Lemma optional_repetition_non_nil_on_success_witness :
  exists l : list (RValue unit),
    Some [] = Some l /\
    (forall rb, Parse (lit "+") (Branch (newContext [tok 45 "-" 0])) [] noParent = Done rb ->
                r_out rb = None -> l = []).
Proof.
  apply (optional_repetition_non_nil_on_success (P:=P5) (lit "+") ""
           (newContext [tok 45 "-" 0]) [] noParent
           (mkRet (Some []) None (newContext [tok 45 "-" 0]) [])).
  - left. reflexivity.
  - reflexivity.
Defined.

(** C2 as stated fails: over a body that reads a token and then fails,
    the stop policy makes both nodes hand back the body's nil list with
    the error. *)
Lemma optional_repetition_nil_counterexample :
  (exists r, optional_Parse (P:=P5) (failingNode P5) (newContext plusTokens) [] noParent
             = Done r /\ r_out r = None)
  /\ (exists r, repetition_Parse (P:=P5) (failingNode P5) "" (newContext plusTokens)
                  [] noParent = Done r /\ r_out r = None).
Proof.
  split; eexists; split; [vm_compute; reflexivity|reflexivity
                         |vm_compute; reflexivity|reflexivity].
Defined.




Lemma disjunction_no_progress_panics_witness :
  disjunction_Parse (P:=P5) [optional_node (P:=P5) (lit "a") "a?"]
    (newContext [tok 120 "x" 0]) [] noParent
  = Panic (PanicError
      (Errorf (mkPosition "" 0 1 1)
         "branch %s was accepted but did not progress the lexer at %s (%q)"
         ["a?"; "1:1"; "x"])).
Proof.
  unfold disjunction_Parse.
  eapply (disjunction_no_progress_panics (P:=P5)); reflexivity.
Defined.

Lemma capture_defers_on_error_witness :
  exists r,
    capture_Parse wordCapture (newContext [tok 97 "a" 0; tok 99 "c" 1]) []
      (RAddr (0%nat, [])) = Done r
    /\ r_out r = Some [RAddr (0%nat, [])]
    /\ r_err r = Some (UnexpectedTokenError (tok 99 "c" 1) "b")
    /\ map (@cfs_fieldValue unit) (apply (r_ctx r)) = [Some [ValueOf_string "a"]].
Proof.
  destruct (capture_defers_on_error wordCapture
              (newContext [tok 97 "a" 0; tok 99 "c" 1]) []
              (RAddr (0%nat, [])) _ [ValueOf_string "a"] eq_refl eq_refl)
    as [H Ha].
  eexists. split; [exact H|]. repeat split.
Defined.

Lemma setField_bool_witness :
  exists h',
    store [zero (P:=P5) flagType] (0%nat, [0%nat]) (VBool tBool true) = Done h'
    /\ setField (P:=P5) [zero (P:=P5) flagType] [] (RAddr (0%nat, []))
         (mkField "On" [0%nat]) (Some [ValueOf_string "off"]) = Done (h', None).
Proof.
  apply (setField_bool (P:=P5) [zero (P:=P5) flagType] [] (RAddr (0%nat, []))
           (mkField "On" [0%nat]) [ValueOf_string "off"] (0%nat, [0%nat]) "bool" false);
    try reflexivity.
  - discriminate.
  - constructor; [eexists; split; reflexivity|constructor].
Defined.

(** C8 as stated fails: the error a negation returns when its body matches
    is the positioned error of Errorf, not an UnexpectedTokenError. *)
Lemma negation_error_kind_counterexample :
  exists r,
    negation_Parse (lit ";") (newContext [tok 59 ";" 0]) [] noParent = Done r
    /\ r_err r = Some (Errorf (mkPosition "" 0 1 1) "unexpected '%s'" [";"])
    /\ forall got expected, r_err r <> Some (UnexpectedTokenError got expected).
Proof.
  eexists. split; [vm_compute; reflexivity|]. split; [reflexivity|].
  intros got expected. discriminate.
Defined.

(** With the default ceiling of 1000000: the repetition over an optional
    literal that is not there. *)
Example repetition_reaches_ceiling :
  repetition_Parse (P:=Pdefault) (optional_node (P:=Pdefault) (lit "a") "a?") "{ a? }"
    (newContext [tok 120 "x" 0]) [] noParent
  = Panic (PanicError
      (too_many_iterations (P:=Pdefault) (mkPosition "" 0 1 1) "{ a? }")).
Proof.
  exact (repetition_idle_body_panics (P:=Pdefault)
           (optional_node (P:=Pdefault) (lit "a") "a?") "{ a? }"
           (newContext [tok 120 "x" 0]) [] noParent eq_refl).
Qed.

(** C1, the code at the scenario's input: the three captured tokens are
    joined into the string [+++], conform reports it as an invalid integer,
    and the parse returns the struct with [Count] still 0 together with
    that error; the increment of setField is not reached.  Capturing each
    token on its own fares no better: the first [+] is already an invalid
    integer. *)
Theorem counter_scenario_returns_error :
  (exists r,
     Parse (counterGrammar Pdefault) (newContext plusTokens) [] noParent = Done r
     /\ r_out r = Some [RAddr (0%nat, [])]
     /\ r_err r = Some (Wrapf (Some (mkPosition "" 0 1 1)) "Counter.Count"
                          (invalid_integer "+++" ErrSyntax))
     /\ load (r_heap r) (0%nat, [0%nat]) = Done (VInt tInt 0))
  /\ (exists r,
        Parse (counterGrammarPerToken Pdefault) (newContext plusTokens) [] noParent
        = Done r
        /\ r_err r = Some (Wrapf (Some (mkPosition "" 0 1 1)) "Counter.Count"
                             (invalid_integer "+" ErrSyntax))
        /\ load (r_heap r) (0%nat, [0%nat]) = Done (VInt tInt 0)).
Proof.
  split; eexists; (split; [vm_compute; reflexivity|]); repeat split.
Qed.

(** The integer parser on the usual forms. *)
Example ParseInt_decimal : ParseInt "-10" 0 64 = (-10, None).
Proof. reflexivity. Qed.

Example ParseInt_hex : ParseInt "0x1F" 0 64 = (31, None).
Proof. reflexivity. Qed.

Example ParseInt_octal : ParseInt "017" 0 64 = (15, None).
Proof. reflexivity. Qed.

Example ParseInt_underscore : ParseInt "1_000" 0 64 = (1000, None).
Proof. reflexivity. Qed.

Example ParseInt_bad_underscore : ParseInt "1__0" 0 64 = (0, Some ErrSyntax).
Proof. reflexivity. Qed.

Example ParseInt_range : ParseInt "300" 0 8 = (127, Some ErrRange).
Proof. reflexivity. Qed.

Example ParseInt_sign_only : ParseInt "+" 0 64 = (0, Some ErrSyntax).
Proof. reflexivity. Qed.

Lemma reference_Parse_ahead_witness :
  exists ctx',
    reference_Parse (mkReference 43 "Plus") ctx_plus [] noParent
    = Done (mkRet (Some [ValueOf_string "+"]) None ctx' [])
    /\ remaining (lex ctx') = tl plusTokens
    /\ Cursor ctx' = 1%nat
    /\ apply ctx' = [].
Proof.
  destruct (reference_Parse_ahead (float:=unit) (mkReference 43 "Plus") ctx_plus []
              noParent (tok 43 "+" 0) (tl plusTokens) eq_refl) as [H _].
  exact (H eq_refl).
Defined.

Lemma parseable_Parse_outcomes_witness :
  exists r,
    parseable_Parse (P:=P5) failingParseable ctx_plus [] noParent = Done r
    /\ lex (r_ctx r) = snd (lexer_Next (lex ctx_plus))
    /\ apply (r_ctx r) = []
    /\ r_heap r = [VBool tBool false]
    /\ r_out r = None /\ r_err r = Some (UserError "boom").
Proof.
  exact (parseable_Parse_outcomes (P:=P5) failingParseable ctx_plus [] noParent
           (VBool tBool false) (snd (lexer_Next (lex ctx_plus)))
           (Some (UserError "boom")) eq_refl).
Defined.


Lemma group_NonEmpty_result_witness :
  exists r,
    group_Parse (P:=P5) (nonEmptyGroup P5) (newContext []) [] noParent = Done r
    /\ r_out r = Some []
    /\ r_err r = Some (Errorf (mkPosition "" 0 1 1)
                         "sub-expression %s cannot be empty" ["( { x } )!"]).
Proof.
  destruct (group_NonEmpty_result (P:=P5) (nonEmptyGroup P5) (newContext []) []
              noParent (mkRet (Some []) None (newContext []) []) eq_refl eq_refl)
    as [r [Hr [Ho [_ [_ [_ He]]]]]].
  exists r. split; [exact Hr|]. split; [exact Ho|]. exact (He eq_refl eq_refl).
Defined.

Lemma group_zero_matches_witness :
  group_Parse (P:=P5) (modeGroup groupMatchOneOrMore) ctx_plus [] noParent
  = Done (mkRet None
            (Some (Errorf (mkPosition "" 0 1 1)
                     "sub-expression %s must match at least once" ["( a )"]))
            ctx_plus []).
Proof.
  exact (group_zero_matches (P:=P5) (modeGroup groupMatchOneOrMore) ctx_plus []
           noParent (mkRet None None ctx_plus [])
           (Nat.lt_0_succ 4) eq_refl eq_refl eq_refl).
Defined.

Lemma group_ZeroOrOne_optional_witness :
  group_Parse (P:=P5) (modeGroup groupMatchZeroOrOne) ctx_ac [] noParent
  = optional_Parse (P:=P5) (lit "a") ctx_ac [] noParent.
Proof.
  destruct (group_ZeroOrOne_optional (P:=P5) (modeGroup groupMatchZeroOrOne) ctx_ac []
              noParent (mkRet (Some [ValueOf_string "a"]) None ctx_ac1 [])
              eq_refl eq_refl eq_refl) as [H _].
  apply H. unfold MaxIterations, P5, plainPlatform. lia.
Defined.


Lemma sequence_all_match_witness :
  sequence_Parse abSequence ctx_ab [] noParent
  = Done (mkRet (Some [ValueOf_string "a"; ValueOf_string "b"]) None ctx_ab2 []).
Proof.
  assert (Hpre : seq_prefix noParent abSequence ctx_ab [] [[ValueOf_string "a"]]
                   (mkSequence false (lit "b") "b" None) ctx_ab1 []).
  { apply (prefix_step noParent true (lit "a") "a b" _ ctx_ab []
             (mkRet (Some [ValueOf_string "a"]) None ctx_ab1 []));
      try reflexivity.
    apply prefix_here. }
  exact (sequence_all_match (float:=unit) noParent abSequence ctx_ab []
           [[ValueOf_string "a"]] false (lit "b") "b" ctx_ab1 []
           (mkRet (Some [ValueOf_string "b"]) None ctx_ab2 []) [ValueOf_string "b"]
           Hpre eq_refl eq_refl eq_refl).
Defined.

Lemma sequence_item_error_witness :
  sequence_Parse (aThenFail P5) ctx_ac [] noParent
  = Done (mkRet (Some [ValueOf_string "a"]) (Some (UserError "boom")) ctx_ac2
            [VBool tBool false]).
Proof.
  assert (Hpre : seq_prefix noParent (aThenFail P5) ctx_ac [] [[ValueOf_string "a"]]
                   (mkSequence false (failingNode P5) "F" None) ctx_ac1 []).
  { apply (prefix_step noParent true (lit "a") "a F" _ ctx_ac []
             (mkRet (Some [ValueOf_string "a"]) None ctx_ac1 []));
      try reflexivity.
    apply prefix_here. }
  exact (sequence_item_error (float:=unit) noParent (aThenFail P5) ctx_ac []
           [[ValueOf_string "a"]] false (failingNode P5) "F" None ctx_ac1 []
           (mkRet None (Some (UserError "boom")) ctx_ac2 [VBool tBool false])
           (UserError "boom") Hpre eq_refl eq_refl).
Defined.

Lemma disjunction_deepest_failure_witness :
  exists pre cur e v post,
    [(1%nat, errUnexpectedC, Some [ValueOf_string (float:=unit) "a"]);
     (0%nat, errNoX, None)]
    = (pre ++ (cur, e, v) :: post)%list
    /\ (forall x, In x pre -> (fst (fst x) <= cur)%nat)
    /\ (forall x, In x post -> (fst (fst x) < cur)%nat)
    /\ disjunction_Parse (P:=P5two) [sequence_node abSequence; oneOrMoreX P5two]
         ctx_ac [] noParent
       = Done (mkRet v (Some e) (MaybeUpdateError ctx_ac e) []).
Proof.
  apply (disjunction_deepest_failure (P:=P5two) noParent ctx_ac []
           [sequence_node abSequence; oneOrMoreX P5two]
           [(1%nat, errUnexpectedC, Some [ValueOf_string "a"]); (0%nat, errNoX, None)]
           ctx_ac []).
  apply (run_failed (P:=P5two) noParent (sequence_node abSequence) _ ctx_ac []
           (mkRet (Some [ValueOf_string "a"]) (Some errUnexpectedC) ctx_ac1 [])
           errUnexpectedC ctx_ac); try reflexivity.
  apply (run_failed (P:=P5two) noParent (oneOrMoreX P5two) _ ctx_ac []
           (mkRet None (Some errNoX) ctx_ac [])
           errNoX ctx_ac); try reflexivity.
  apply run_done.
Defined.


Lemma conform_error_shape_witness :
  @None (list (RValue unit)) = None
  /\ isNumericKind (kindOf tInt) = true
  /\ exists s ne, invalid_integer "x" ErrSyntax = invalid_integer s ne.
Proof.
  exact (conform_error_shape (P:=P5) [] tInt (Some [ValueOf_string "x"]) None
           (invalid_integer "x" ErrSyntax) eq_refl).
Defined.

Lemma conform_keeps_count_witness :
  List.length [RImm (float:=unit) (VInt tInt 1); RImm (VInt tInt 2)] = 2%nat.
Proof.
  exact (conform_keeps_count (P:=P5) [] tInt
           [ValueOf_string "1"; ValueOf_string "2"]
           (Some [RImm (VInt tInt 1); RImm (VInt tInt 2)]) eq_refl eq_refl).
Defined.

Lemma setField_int_strings_witness :
  exists h',
    store (heapOf counterType) (0%nat, [0%nat]) (VInt tInt (-10)) = Done h'
    /\ setField (P:=P5) (heapOf counterType) [] cell0 (field0 "Count")
         (Some (stringValues ["-"; "10"])) = Done (h', None).
Proof.
  exact (setField_int_strings (P:=P5) (heapOf counterType) [] cell0 (field0 "Count")
           ["-"; "10"] (0%nat, [0%nat]) "int" Int 0 64 (zero (P:=P5) counterType)
           eq_refl eq_refl eq_refl eq_refl eq_refl eq_refl
           (fun E => @nil_cons string "-" ["10"] (eq_sym E))
           eq_refl).
Defined.

Lemma setField_no_value_panics_witness :
  setField (P:=P5) (heapOf counterType) [] cell0 (field0 "Count") (Some [])
  = Panic (PanicString "runtime error: index out of range [0] with length 0").
Proof.
  apply (setField_no_value_panics (P:=P5) (heapOf counterType) [] cell0
           (field0 "Count") (Some []) (0%nat, [0%nat]) (VInt tInt 0)).
  - unfold scalar_field. repeat split.
  - reflexivity.
Defined.

(** The panic of X16 is reached from a grammar: a counter captured from an
    optional literal that is not there. *)
Example capture_of_absent_optional_panics :
  Parse (optionalCounter P5) (newContext [tok 120 "x" 0]) [] noParent
  = Panic (PanicString "runtime error: index out of range [0] with length 0").
Proof. vm_compute. reflexivity. Qed.

Lemma setField_struct_witness :
  exists h',
    store heapOuter (0%nat, [0%nat]) (VStruct wordType [VString tString "hi"]) = Done h'
    /\ setField (P:=P5) heapOuter [] cell0 (field0 "Inner") (Some [RAddr (1%nat, [])])
       = Done (h', None).
Proof.
  assert (Hsf : scalar_field (P:=P5) heapOuter cell0 (field0 "Inner") (0%nat, [0%nat])
                  (VStruct wordType [VString tString ""]))
    by (unfold scalar_field; repeat split).
  destruct (setField_struct (P:=P5) heapOuter [] cell0 (field0 "Inner")
              (RAddr (1%nat, [])) (VStruct wordType [VString tString "hi"])
              (0%nat, [0%nat]) wordType [VString tString ""]
              (zero (P:=P5) outerType) Hsf eq_refl eq_refl) as [H _].
  exact (H eq_refl).
Defined.

Lemma setField_unsupported_kind_witness :
  setField (P:=P5) (heapOf mapType) [tok 120 "x" 7] cell0 (field0 "M")
    (Some (stringValues ["x"]))
  = Done (heapOf mapType,
          Some (Wrapf (Some (mkPosition "" 7 1 8)) "M.M"
                  (unsupported_field_type (TMap "map[string]int") "M"))).
Proof.
  apply (setField_unsupported_kind (P:=P5) (heapOf mapType) [tok 120 "x" 7] cell0
           (field0 "M") ["x"] (0%nat, [0%nat]) "map[string]int"
           (zero (P:=P5) mapType)).
  - unfold scalar_field. repeat split.
  - discriminate.
  - reflexivity.
Defined.

Lemma setField_string_concat_witness :
  exists h',
    setField (P:=P5) heapWord [] cell0 (field0 "S") (Some (stringValues ["-"; "10"]))
    = Done (h', None)
    /\ load h' (0%nat, [0%nat]) = Done (VString tString "ab-10").
Proof.
  exact (setField_string_concat (P:=P5) heapWord [] cell0 (field0 "S") ["-"; "10"]
           (0%nat, [0%nat]) "string" "ab" eq_refl eq_refl eq_refl eq_refl).
Defined.

Lemma setField_slice_append_witness :
  exists h',
    store (heapOf listType) (0%nat, [0%nat])
      (VSlice (TSlice tString) (Some [VString tString "a"; VString tString "b"]))
    = Done h'
    /\ setField (P:=P5) (heapOf listType) [] cell0 (field0 "Items")
         (Some (stringValues ["a"; "b"])) = Done (h', None).
Proof.
  exact (setField_slice_append (P:=P5) (heapOf listType) [] cell0 (field0 "Items")
           ["a"; "b"] (0%nat, [0%nat]) None eq_refl eq_refl eq_refl eq_refl eq_refl).
Defined.

Lemma setField_token_fields_witness :
  exists h',
    store (heapOf tokType) (0%nat, [0%nat]) (Token_value (tok 43 "+" 0)) = Done h'
    /\ setField (P:=P5) (heapOf tokType) plusTokens cell0 (field0 "Tok")
         (Some (stringValues ["ignored"])) = Done (h', None).
Proof.
  destruct (setField_token_fields (P:=P5) (heapOf tokType) plusTokens cell0
              (field0 "Tok") (Some (stringValues ["ignored"])) (0%nat, [0%nat])
              (zero (P:=P5) tokenType) eq_refl eq_refl) as [H _].
  exact (H (ex_intro _ _ eq_refl)).
Defined.


Lemma capture_result_shape_witness :
  (r_out (retOf (capture_Parse wordCapture ctx_ac [] cell0)) = None
   \/ r_out (retOf (capture_Parse wordCapture ctx_ac [] cell0)) = Some [cell0])
  /\ r_err (retOf (capture_Parse wordCapture ctx_ac [] cell0)) = Some errUnexpectedC.
Proof.
  destruct (capture_result_shape wordCapture ctx_ac [] cell0
              (mkRet (Some [ValueOf_string "a"]) (Some errUnexpectedC) ctx_ac1 [])
              (retOf (capture_Parse wordCapture ctx_ac [] cell0)) eq_refl eq_refl)
    as [H [_ [He _]]].
  split; [exact H|exact He].
Defined.

Lemma strct_result_shape_witness :
  r_out (retOf runWord) = None \/ r_out (retOf runWord) = Some [RAddr (0%nat, [])].
Proof.
  apply (strct_result_shape (P:=P5) (wordGrammar P5) ctx_ac [] noParent (retOf runWord)).
  vm_compute. reflexivity.
Defined.

Lemma setField_through_pointer_witness :
  setField_body (P:=P5) heapOpt [] cell0 (field0 "On") (Some (stringValues ["y"]))
  = setField_body (P:=P5) heapOpt [] (RAddr (1%nat, [])) (mkField "On" [])
      (Some (stringValues ["y"])).
Proof.
  apply (setField_through_pointer (P:=P5) heapOpt [] cell0 (field0 "On")
           (Some (stringValues ["y"])) (0%nat, [0%nat]) (TPtr tBool) (1%nat, [])
           (VBool tBool false)); try reflexivity.
  intros t' tgt. discriminate.
Defined.

(** Through the pointer of [heapOpt] the bool it leads to becomes true. *)
Example pointer_target_is_set :
  exists h',
    setField (P:=P5) heapOpt [] cell0 (field0 "On") (Some (stringValues ["y"]))
    = Done (h', None)
    /\ load h' (1%nat, []) = Done (VBool tBool true)
    /\ load h' (0%nat, [0%nat]) = Done (VPtr (TPtr tBool) (Some (1%nat, []))).
Proof. eexists. split; [vm_compute; reflexivity|]. split; reflexivity. Qed.

Lemma setField_hydrates_nil_pointer_witness :
  exists h2,
    store (heapOf optType ++ [VBool tBool false])%list (0%nat, [0%nat])
      (VPtr (TPtr tBool) (Some (1%nat, []))) = Done h2
    /\ load h2 (0%nat, [0%nat]) = Done (VPtr (TPtr tBool) (Some (1%nat, [])))
    /\ load h2 (1%nat, []) = Done (VBool tBool false)
    /\ setField_body (P:=P5) (heapOf optType) [] cell0 (field0 "On")
         (Some (stringValues ["y"]))
       = setField_body (P:=P5) h2 [] (RAddr (1%nat, [])) (mkField "On" [])
           (Some (stringValues ["y"])).
Proof.
  apply (setField_hydrates_nil_pointer (P:=P5) (heapOf optType) [] cell0 (field0 "On")
           (Some (stringValues ["y"])) (0%nat, [0%nat]) tBool); try reflexivity.
  intros e'. discriminate.
Defined.

(** The nil pointer of a fresh [Opt] ends up pointing at a true bool. *)
Example nil_pointer_is_hydrated :
  exists h',
    setField (P:=P5) (heapOf optType) [] cell0 (field0 "On")
      (Some (stringValues ["y"])) = Done (h', None)
    /\ load h' (0%nat, [0%nat]) = Done (VPtr (TPtr tBool) (Some (1%nat, [])))
    /\ load h' (1%nat, []) = Done (VBool tBool true).
Proof. eexists. split; [vm_compute; reflexivity|]. split; reflexivity. Qed.

Lemma conform_numeric_typed_witness :
  Forall (typed (float:=unit) [] tInt) [RImm (VInt tInt 7)].
Proof.
  apply (conform_numeric_typed (P:=P5) [] tInt [ValueOf_string "7"] None
           [RImm (VInt tInt 7)]).
  - reflexivity.
  - constructor.
  - reflexivity.
Defined.

Lemma repetition_idle_body_panics_witness :
  repetition_Parse (P:=P5) (optional_node (P:=P5) (lit "a") "a?") "{ a? }"
    (newContext [tok 120 "x" 0]) [] noParent
  = Panic (PanicError
      (Errorf (mkPosition "" 0 1 1) "too many iterations of %s (> %d)"
         ["{ a? }"; "5"])).
Proof.
  exact (repetition_idle_body_panics (P:=P5)
           (optional_node (P:=P5) (lit "a") "a?") "{ a? }"
           (newContext [tok 120 "x" 0]) [] noParent eq_refl).
Defined.

Lemma setField_capture_hook_witness :
  exists h',
    store (heapOf upperStruct) (0%nat, [0%nat]) (VString upperType "ab") = Done h'
    /\ setField_body (P:=Phook) (heapOf upperStruct) [] cell0 (field0 "Name")
         (Some (stringValues ["a"; "b"])) = Done (h', None).
Proof.
  exact (setField_capture_hook (P:=Phook) (heapOf upperStruct) [] cell0
           (field0 "Name") ["a"; "b"] (0%nat, [0%nat]) (VString upperType "")
           upperCapture eq_refl eq_refl (fun t tgt E => eq_ind (VString upperType "")
             (fun v => match v with VString _ _ => True | _ => False end) I _ E)
           eq_refl eq_refl eq_refl).
Defined.
